(** * ContactResolver (libcommhistory, src/contactresolver.cpp)

    A shallow embedding of the contact resolver: the address folding
    functions, the private state of the resolver, its operations
    (appendEvents, prependEvents, resolveEvent, addressResolved,
    checkIfResolved, applyResolvedContacts, events, isResolving) and the
    protocol it follows with SeasideCache, together with the properties
    of the specification that concern them.

    What the model leaves out: [resolveTimer] and the [qDebug] line of
    [checkIfResolved] (they are written and read nowhere else), and the
    fields of [Event] other than its identifier, its two addresses and its
    contact list.  [resolvedAddresses] is a C++ [int]; it is modelled by an
    unbounded [Z], its range is never left by fewer than 2^31 callbacks. *)

From Stdlib Require Import ZArith Ascii String.
From stdpp Require Import gmap strings list relations.

(** ** Strings and events *)

(** [QString::isEmpty]. *)
Definition isEmpty (s : string) : bool :=
  match s with
  | EmptyString => true
  | String _ _ => false
  end.

(** [typedef QPair<QString, QString> UidPair]. *)
Abbreviation UidPair := (string * string)%type.

(** [Event::Contact] is a [QPair<int, QString>]: contact id and label. *)
Abbreviation Contact := (Z * string)%type.

(** The part of [CommHistory::Event] the resolver reads and writes. *)
Record Event : Type := mkEvent {
  eventId : Z;
  localUid : string;
  remoteUid : string;
  contacts : list Contact
}.

Definition setContacts (cs : list Contact) (event : Event) : Event :=
  {| eventId := eventId event;
     localUid := localUid event;
     remoteUid := remoteUid event;
     contacts := cs |}.

(** ** What the resolver does to the outside *)

(** The three asynchronous requests of SeasideCache; the last argument is
    the [requireComplete] flag. *)
Inductive Request : Type :=
  | ResolvePhoneNumber (number : string) (requireComplete : bool)
  | ResolveEmailAddress (address : string) (requireComplete : bool)
  | ResolveOnlineAccount (localUid remoteUid : string) (requireComplete : bool).

(** The two signals of [ContactResolver]. *)
Inductive Signal : Type :=
  | EventsResolved (resolved : list Event)
  | Finished.

Inductive Action : Type :=
  | Call (r : Request)
  | Emit (s : Signal).

Definition calls (out : list Action) : list Request :=
  omap (fun a => match a with Call r => Some r | Emit _ => None end) out.

Definition emits (out : list Action) : list Signal :=
  omap (fun a => match a with Emit s => Some s | Call _ => None end) out.

(** The event lists that [eventsResolved] has carried, in order. *)
Definition delivered (out : list Action) : list (list Event) :=
  omap (fun a =>
          match a with
          | Emit (EventsResolved resolved) => Some resolved
          | _ => None
          end) out.

(** An event without its contact list. *)
Definition withoutContacts (event : Event) : Event := setContacts [] event.

(** ** The private state *)

Record ContactResolverPrivate : Type := mkPrivate {
  events : list Event;
  requestedAddresses : gset UidPair;
  resolvedAddresses : Z
}.

(** The range of the C++ [int] that [resolvedAddresses] and
    [QSet::size] are. *)
Definition INT_MIN : Z := -2147483648.
Definition INT_MAX : Z := 2147483647.

(** The state the constructor leaves. *)
Definition initial : ContactResolverPrivate :=
  {| events := []; requestedAddresses := ∅; resolvedAddresses := 0 |}.

Definition set_events (l : list Event) (d : ContactResolverPrivate) :=
  {| events := l;
     requestedAddresses := requestedAddresses d;
     resolvedAddresses := resolvedAddresses d |}.

Definition set_requestedAddresses (X : gset UidPair) (d : ContactResolverPrivate) :=
  {| events := events d;
     requestedAddresses := X;
     resolvedAddresses := resolvedAddresses d |}.

Definition set_resolvedAddresses (n : Z) (d : ContactResolverPrivate) :=
  {| events := events d;
     requestedAddresses := requestedAddresses d;
     resolvedAddresses := n |}.

(** ** Member functions as state transformers with output

    A member function reads and writes the private state and, on its way,
    calls SeasideCache and emits signals; both are collected in order. *)

Definition Op (A : Type) : Type :=
  ContactResolverPrivate -> A * ContactResolverPrivate * list Action.

Definition ret {A} (a : A) : Op A := fun d => (a, d, []).

Definition bind {A B} (m : Op A) (k : A -> Op B) : Op B :=
  fun d =>
    let '(a, d1, o1) := m d in
    let '(b, d2, o2) := k a d1 in
    (b, d2, o1 ++ o2).

Definition get : Op ContactResolverPrivate := fun d => (d, d, []).
Definition modify (f : ContactResolverPrivate -> ContactResolverPrivate) : Op unit :=
  fun d => (tt, f d, []).
Definition call (r : Request) : Op unit := fun d => (tt, d, [Call r]).
Definition emit (s : Signal) : Op unit := fun d => (tt, d, [Emit s]).

Declare Scope op_scope.
Delimit Scope op_scope with op.
Notation "x <- m ;; k" := (bind m (fun x => k))
  (at level 100, m at next level, right associativity) : op_scope.
Notation "m ;;; k" := (bind m (fun _ => k))
  (at level 100, right associativity) : op_scope.
Local Open Scope op_scope.

(** [foreach (const Event &event, l) body]. *)
Fixpoint foreach {A} (l : list A) (body : A -> Op unit) : Op unit :=
  match l with
  | [] => ret tt
  | x :: rest => body x ;;; foreach rest body
  end.

Definition state_of {A} (r : A * ContactResolverPrivate * list Action) :=
  snd (fst r).
Definition value_of {A} (r : A * ContactResolverPrivate * list Action) : A :=
  fst (fst r).
Definition output_of {A} (r : A * ContactResolverPrivate * list Action) :=
  snd r.

Arguments state_of {A} !r /.
Arguments value_of {A} !r /.
Arguments output_of {A} !r /.

(** ** SeasideCache, as the resolver sees it *)

Inductive DisplayLabelOrder : Type := FirstNameFirst | LastNameFirst.

Section Resolver.

(** The contact record held by a cache item. *)
Context {QContact : Type}.

Record CacheItem : Type := mkCacheItem {
  iid : Z;
  contact : QContact
}.

(** The synchronous lookups of SeasideCache and its label generator.  The
    cache is outside this repository; a value of this type is the cache
    at one moment. *)
Record SeasideCache : Type := mkCache {
  itemByPhoneNumber : string -> bool -> option CacheItem;
  itemByEmailAddress : string -> bool -> option CacheItem;
  itemByOnlineAccount : string -> string -> bool -> option CacheItem;
  generateDisplayLabel : QContact -> DisplayLabelOrder -> string;
  displayLabelOrder : DisplayLabelOrder
}.

(** [QString::toCaseFolded] of Qt, and the two helpers of commonutils.cpp
    that contactresolver.cpp calls; none of them is defined in
    contactresolver.cpp. *)
Variable toCaseFolded : string -> string.
Variable minimizePhoneNumber : string -> string.
Variable localUidComparesPhoneNumbers : string -> bool.

(** ** Address folding *)

Definition foldedAddress (localUid remoteUid : string) : UidPair :=
  if isEmpty localUid then
    let remote := minimizePhoneNumber remoteUid in
    let remote := if isEmpty remote then remoteUid else remote in
    (EmptyString, toCaseFolded remote)
  else (toCaseFolded localUid, toCaseFolded remoteUid).

Definition foldedEventAddress (localUid remoteUid : string) : UidPair :=
  if localUidComparesPhoneNumbers localUid then
    foldedAddress EmptyString remoteUid
  else (toCaseFolded localUid, toCaseFolded remoteUid).

(** The overload that takes an event. *)
Definition foldedEventAddressOf (event : Event) : UidPair :=
  foldedEventAddress (localUid event) (remoteUid event).

(** ** Requests *)

(** The request [resolveEvent] sends for a folded pair. *)
Definition requestFor (uidPair : UidPair) : Request :=
  if isEmpty (fst uidPair) then ResolvePhoneNumber (snd uidPair) true
  else if isEmpty (snd uidPair) then ResolveEmailAddress (fst uidPair) true
  else ResolveOnlineAccount (fst uidPair) (snd uidPair) true.

Definition resolveEvent (event : Event) : Op unit :=
  if isEmpty (localUid event) || isEmpty (remoteUid event) then ret tt
  else
    let uidPair := foldedEventAddressOf event in
    d <- get ;;
    if decide (uidPair ∈ requestedAddresses d) then ret tt
    else
      modify (fun d => set_requestedAddresses ({[uidPair]} ∪ requestedAddresses d) d) ;;;
      call (requestFor uidPair).

(** ** The contact-application pass *)

Definition lookupItem (cache : SeasideCache) (event : Event) : option CacheItem :=
  let localUid := localUid event in
  let remoteUid := remoteUid event in
  if localUidComparesPhoneNumbers localUid then
    itemByPhoneNumber cache remoteUid true
  else if isEmpty remoteUid then
    itemByEmailAddress cache localUid true
  else
    itemByOnlineAccount cache localUid remoteUid true.

(** The contact list that corresponds to the outcome of a lookup: one
    entry for a match, none otherwise. *)
Definition contactsFor (cache : SeasideCache) (item : option CacheItem)
    : list Contact :=
  match item with
  | Some item =>
      [(iid item, generateDisplayLabel cache (contact item) (displayLabelOrder cache))]
  | None => []
  end.

(** The body of the loop of [applyResolvedContacts]. *)
Definition applyContact (cache : SeasideCache) (event : Event) : Event :=
  match lookupItem cache event with
  | Some item =>
      let label :=
        generateDisplayLabel cache (contact item) (displayLabelOrder cache) in
      setContacts [(iid item, label)] event
  | None => setContacts [] event
  end.

(** A [const] member: it works on a copy of [events]. *)
Definition applyResolvedContacts (cache : SeasideCache)
    (d : ContactResolverPrivate) : list Event :=
  let resolved := events d in
  map (applyContact cache) resolved.

(** ** Completion *)

Definition checkIfResolved (cache : SeasideCache) : Op unit :=
  d <- get ;;
  if bool_decide (events d = []) then ret tt
  else if (resolvedAddresses d <? Z.of_nat (size (requestedAddresses d)))%Z then ret tt
  else
    let resolved := applyResolvedContacts cache d in
    modify (set_events []) ;;;
    emit (EventsResolved resolved) ;;;
    emit Finished.

(** Whether the completion check delivers in state [d]. *)
Definition due (d : ContactResolverPrivate) : bool :=
  negb (bool_decide (events d = []))
  && negb (resolvedAddresses d <? Z.of_nat (size (requestedAddresses d)))%Z.

(** The ResolveListener callback; its three arguments are not used. *)
Definition addressResolved (cache : SeasideCache) : Op unit :=
  modify (fun d => set_resolvedAddresses (resolvedAddresses d + 1)%Z d) ;;;
  checkIfResolved cache.

(** ** The public interface *)

(** [ContactResolver::events() const]. *)
Definition ContactResolver_events (cache : SeasideCache) : Op (list Event) :=
  d <- get ;; ret (applyResolvedContacts cache d).

Definition isResolving : Op bool :=
  d <- get ;; ret (negb (bool_decide (events d = []))).

Definition appendEvents (cache : SeasideCache) (l : list Event) : Op unit :=
  foreach l (fun event =>
    resolveEvent event ;;;
    modify (fun d => set_events (events d ++ [event]) d)) ;;;
  checkIfResolved cache.

Definition prependEvents (cache : SeasideCache) (l : list Event) : Op unit :=
  foreach l (fun event =>
    resolveEvent event ;;;
    modify (fun d => set_events (event :: events d) d)) ;;;
  checkIfResolved cache.

(** ** Runs of the resolver

    What a client or SeasideCache can do to a resolver.  The cache an
    operation meets is given with it: the cache changes between two
    operations. *)

Inductive Operation : Type :=
  | AppendEvents (l : list Event)
  | PrependEvents (l : list Event)
  | AddressResolved
  | Events.

Definition perform (step : SeasideCache * Operation) : Op unit :=
  let cache := fst step in
  match snd step with
  | AppendEvents l => appendEvents cache l
  | PrependEvents l => prependEvents cache l
  | AddressResolved => addressResolved cache
  | Events => ContactResolver_events cache ;;; ret tt
  end.

Definition performAll (steps : list (SeasideCache * Operation)) : Op unit :=
  foreach steps perform.

(** The events of an operation that [resolveEvent] does not skip, and the
    folded pairs of the events a run hands over. *)
Definition skipped (event : Event) : bool :=
  isEmpty (localUid event) || isEmpty (remoteUid event).

Definition keysOf (l : list Event) : list UidPair :=
  foldedEventAddressOf <$> filter (fun event => skipped event = false) l.

Definition batchOf (step : SeasideCache * Operation) : list Event :=
  match snd step with
  | AppendEvents l | PrependEvents l => l
  | AddressResolved | Events => []
  end.

Definition requestKeys (steps : list (SeasideCache * Operation)) : list UidPair :=
  keysOf (steps ≫= batchOf).

(** ** Auxiliary descriptions of the two loops *)

(** The folded pairs a loop over [l] inserts into a set that holds [X],
    in the order of their requests. *)
Fixpoint freshKeys (X : gset UidPair) (l : list Event) : list UidPair :=
  match l with
  | [] => []
  | event :: rest =>
      if skipped event then freshKeys X rest
      else
        let uidPair := foldedEventAddressOf event in
        if decide (uidPair ∈ X) then freshKeys X rest
        else uidPair :: freshKeys ({[uidPair]} ∪ X) rest
  end.

(** The loop of [appendEvents] and the loop of [prependEvents] differ in
    the place where the event is put. *)
Definition addLoop (place : Event -> list Event -> list Event) (l : list Event)
    : Op unit :=
  foreach l (fun event =>
    resolveEvent event ;;;
    modify (fun d => set_events (place event (events d)) d)).

(** ** The resolver together with SeasideCache

    The comment on the implementation logic assumes one [addressResolved]
    callback for each request made, and the callback comes after the
    request has returned.  [outstanding] holds the requests SeasideCache
    has accepted and not yet answered; a completion answers one of them,
    in any order. *)

Record System : Type := mkSystem {
  resolver : ContactResolverPrivate;
  outstanding : list Request
}.

Definition boot : System := {| resolver := initial; outstanding := [] |}.

Inductive Stimulus : Type :=
  | Client (op : Operation)
  | Completion (i : nat).

Definition after (sys : System) (pending : list Request)
    (r : unit * ContactResolverPrivate * list Action) : System * list Signal :=
  ({| resolver := state_of r;
      outstanding := pending ++ calls (output_of r) |},
   emits (output_of r)).

Definition react (cache : SeasideCache) (st : Stimulus) (sys : System)
    : option (System * list Signal) :=
  match st with
  | Client AddressResolved => None
  | Client op => Some (after sys (outstanding sys) (perform (cache, op) (resolver sys)))
  | Completion i =>
      match outstanding sys !! i with
      | Some _ =>
          Some (after sys (delete i (outstanding sys))
                  (addressResolved cache (resolver sys)))
      | None => None
      end
  end.

Inductive reachable : System -> Prop :=
  | reachable_boot : reachable boot
  | reachable_react cache st sys sys' sigs :
      reachable sys ->
      react cache st sys = Some (sys', sigs) ->
      reachable sys'.

(** A sequence of stimuli, each with the cache of its moment; [None] when
    one of them cannot happen. *)
Fixpoint reactAll (stimuli : list (SeasideCache * Stimulus)) (sys : System)
    : option (System * list Signal) :=
  match stimuli with
  | [] => Some (sys, [])
  | (cache, st) :: rest =>
      match react cache st sys with
      | Some (sys1, sigs1) =>
          match reactAll rest sys1 with
          | Some (sys2, sigs2) => Some (sys2, sigs1 ++ sigs2)
          | None => None
          end
      | None => None
      end
  end.

(** The state in which an operation runs its completion check: the batch
    is held, its new folded pairs are in the set, a callback is counted. *)
Definition prepared (op : Operation) (d : ContactResolverPrivate)
    : ContactResolverPrivate :=
  {| events :=
       match op with
       | AppendEvents l => events d ++ l
       | PrependEvents l => rev l ++ events d
       | AddressResolved | Events => events d
       end;
     requestedAddresses :=
       match op with
       | AppendEvents l | PrependEvents l =>
           list_to_set (freshKeys (requestedAddresses d) l) ∪ requestedAddresses d
       | AddressResolved | Events => requestedAddresses d
       end;
     resolvedAddresses :=
       match op with
       | AddressResolved => (resolvedAddresses d + 1)%Z
       | _ => resolvedAddresses d
       end |}.

Definition isCompletion (step : SeasideCache * Stimulus) : bool :=
  match snd step with
  | Completion _ => true
  | Client _ => false
  end.

Definition isCallback (step : SeasideCache * Operation) : bool :=
  match snd step with
  | AddressResolved => true
  | _ => false
  end.

Definition isPrepend (step : SeasideCache * Operation) : bool :=
  match snd step with
  | PrependEvents _ => true
  | _ => false
  end.

(** What holds of resolver and cache together between two stimuli: the
    callbacks received and the requests outstanding add up to the requests
    made, and events are held exactly while requests are outstanding. *)
Definition consistent (sys : System) : Prop :=
  (resolvedAddresses (resolver sys) + Z.of_nat (length (outstanding sys)))%Z
    = Z.of_nat (size (requestedAddresses (resolver sys)))
  /\ (events (resolver sys) = [] <-> outstanding sys = []).

End Resolver.

(** ** Sample collaborators

    Concrete stand-ins for the functions the resolver takes from
    elsewhere; the theorems below hold for every choice of them, the
    examples are evaluated on these. *)

Module Sample.

(** Lower-casing of the letters A to Z, the ASCII part of case folding. *)
Definition foldChar (c : ascii) : ascii :=
  let n := nat_of_ascii c in
  if (65 <=? n) && (n <=? 90) then ascii_of_nat (n + 32) else c.

Fixpoint toCaseFolded (s : string) : string :=
  match s with
  | EmptyString => EmptyString
  | String c rest => String (foldChar c) (toCaseFolded rest)
  end.

Definition isDigit (c : ascii) : bool :=
  let n := nat_of_ascii c in (48 <=? n) && (n <=? 57).

Fixpoint digitsOf (s : string) : list ascii :=
  match s with
  | EmptyString => []
  | String c rest => if isDigit c then c :: digitsOf rest else digitsOf rest
  end.

(** Modelled from the spec: [minimizePhoneNumber] of commonutils.cpp,
    which "minimizes the number to a canonical digit form"; here the
    last seven digits of the number, and nothing for a string without
    digits. *)
Definition minimizePhoneNumber (s : string) : string :=
  let ds := digitsOf s in
  string_of_list_ascii (drop (length ds - 7) ds).

(** Modelled from the spec: [localUidComparesPhoneNumbers] of
    commonutils.cpp, which tells whether the "local address denotes phone
    comparison"; as a stand-in, the accounts under one path prefix. *)
Definition ringAccountPrefix : string := "/org/freedesktop/Telepathy/Account/ring/".

Definition localUidComparesPhoneNumbers (localUid : string) : bool :=
  String.prefix ringAccountPrefix localUid.

Definition ringAccount : string := "/org/freedesktop/Telepathy/Account/ring/tel/ril_0".

(** A cache that knows one phone number and one account contact; a
    contact record is its display name. *)
Definition cache : @SeasideCache string :=
  {| itemByPhoneNumber := fun number _ =>
       if String.eqb number "+1-555-0100" then Some (mkCacheItem 7 "Alice") else None;
     itemByEmailAddress := fun _ _ => None;
     itemByOnlineAccount := fun localUid remoteUid _ =>
       if String.eqb localUid "acct1" && String.eqb remoteUid "acct1-contact"
       then Some (mkCacheItem 9 "Bob") else None;
     generateDisplayLabel := fun c _ => c;
     displayLabelOrder := FirstNameFirst |}.

(** A cache that knows nobody. *)
Definition emptyCache : @SeasideCache string :=
  {| itemByPhoneNumber := fun _ _ => None;
     itemByEmailAddress := fun _ _ => None;
     itemByOnlineAccount := fun _ _ _ => None;
     generateDisplayLabel := fun c _ => c;
     displayLabelOrder := FirstNameFirst |}.

Definition appendEvents := @appendEvents string toCaseFolded minimizePhoneNumber localUidComparesPhoneNumbers.
Definition prependEvents := @prependEvents string toCaseFolded minimizePhoneNumber localUidComparesPhoneNumbers.
Definition addressResolved := @addressResolved string localUidComparesPhoneNumbers.
Definition performAll := @performAll string toCaseFolded minimizePhoneNumber localUidComparesPhoneNumbers.
Definition react := @react string toCaseFolded minimizePhoneNumber localUidComparesPhoneNumbers.
Definition reachable := @reachable string toCaseFolded minimizePhoneNumber localUidComparesPhoneNumbers.
Definition reactAll := @reactAll string toCaseFolded minimizePhoneNumber localUidComparesPhoneNumbers.

(** The two events of the end-to-end scenario of the specification, and
    the phone number seen from a telephony account. *)
Definition phoneForm : Event := mkEvent 1 "" "+1-555-0100" [].
Definition accountForm : Event := mkEvent 2 "acct1" "acct1-contact" [].
Definition ringForm : Event := mkEvent 3 ringAccount "+1-555-0100" [].

(** Four events of four different contacts. *)
Definition eventA : Event := mkEvent 10 "acct1" "alice" [].
Definition eventB : Event := mkEvent 11 "acct1" "bob" [].
Definition eventC : Event := mkEvent 12 "acct2" "carol" [].
Definition eventD : Event := mkEvent 13 "acct2" "dave" [].

(** One session: the account event is appended, its request is answered. *)
Definition requested1 := appendEvents cache [accountForm] initial.
Definition finished1 := addressResolved cache (state_of requested1).

(** The same session, resolver and cache together. *)
Definition sys1 : System :=
  fst (after boot (outstanding boot)
         (perform toCaseFolded minimizePhoneNumber localUidComparesPhoneNumbers
            (cache, AppendEvents [accountForm]) (resolver boot))).
Definition sys2 : System :=
  fst (after sys1 (delete 0 (outstanding sys1))
         (addressResolved cache (resolver sys1))).

(** A second session of the same event, on the emptied resolver. *)
Definition sys3 : System :=
  fst (after sys2 (outstanding sys2)
         (perform toCaseFolded minimizePhoneNumber localUidComparesPhoneNumbers
            (cache, AppendEvents [accountForm]) (resolver sys2))).

(** The number of [ringForm], written differently and seen from another
    telephony account. *)
Definition ringForm2 : Event :=
  mkEvent 4 "/org/freedesktop/Telepathy/Account/ring/tel/ril_1" "555 0100" [].

End Sample.

(** * Properties *)

Section Properties.

Context {QContact : Type}.
Variable toCaseFolded : string -> string.
Variable minimizePhoneNumber : string -> string.
Variable localUidComparesPhoneNumbers : string -> bool.

Implicit Types (cache : @SeasideCache QContact) (d : ContactResolverPrivate).
Implicit Types (event : Event) (l : list Event) (X : gset UidPair).
Implicit Types (step : @SeasideCache QContact * Operation).
Implicit Types (steps : list (@SeasideCache QContact * Operation)).

Local Abbreviation foldedAddress := (foldedAddress toCaseFolded minimizePhoneNumber).
Local Abbreviation foldedEventAddress :=
  (foldedEventAddress toCaseFolded minimizePhoneNumber localUidComparesPhoneNumbers).
Local Abbreviation foldedEventAddressOf :=
  (foldedEventAddressOf toCaseFolded minimizePhoneNumber localUidComparesPhoneNumbers).
Local Abbreviation resolveEvent :=
  (resolveEvent toCaseFolded minimizePhoneNumber localUidComparesPhoneNumbers).
Local Abbreviation lookupItem := (lookupItem localUidComparesPhoneNumbers).
Local Abbreviation applyContact := (applyContact localUidComparesPhoneNumbers).
Local Abbreviation callbacks := (fmap (M := list) (fun cache => (cache, AddressResolved))).
Local Abbreviation applyResolvedContacts := (applyResolvedContacts localUidComparesPhoneNumbers).
Local Abbreviation checkIfResolved := (checkIfResolved localUidComparesPhoneNumbers).
Local Abbreviation addressResolved := (addressResolved localUidComparesPhoneNumbers).
Local Abbreviation ContactResolver_events :=
  (ContactResolver_events localUidComparesPhoneNumbers).
Local Abbreviation appendEvents :=
  (appendEvents toCaseFolded minimizePhoneNumber localUidComparesPhoneNumbers).
Local Abbreviation prependEvents :=
  (prependEvents toCaseFolded minimizePhoneNumber localUidComparesPhoneNumbers).
Local Abbreviation perform :=
  (perform toCaseFolded minimizePhoneNumber localUidComparesPhoneNumbers).
Local Abbreviation performAll :=
  (performAll toCaseFolded minimizePhoneNumber localUidComparesPhoneNumbers).
Local Abbreviation keysOf :=
  (keysOf toCaseFolded minimizePhoneNumber localUidComparesPhoneNumbers).
Local Abbreviation freshKeys :=
  (freshKeys toCaseFolded minimizePhoneNumber localUidComparesPhoneNumbers).
Local Abbreviation addLoop :=
  (addLoop toCaseFolded minimizePhoneNumber localUidComparesPhoneNumbers).
Local Abbreviation requestKeys :=
  (requestKeys toCaseFolded minimizePhoneNumber localUidComparesPhoneNumbers).
Local Abbreviation react :=
  (react toCaseFolded minimizePhoneNumber localUidComparesPhoneNumbers).
Local Abbreviation reachable :=
  (@reachable QContact toCaseFolded minimizePhoneNumber localUidComparesPhoneNumbers).
Local Abbreviation reactAll :=
  (reactAll toCaseFolded minimizePhoneNumber localUidComparesPhoneNumbers).
Local Abbreviation prepared :=
  (prepared toCaseFolded minimizePhoneNumber localUidComparesPhoneNumbers).

(** ** The operations, in closed form *)

Lemma isEmpty_true (s : string) : isEmpty s = true <-> s = EmptyString.
Proof. destruct s; simpl; split; congruence. Qed.

Lemma isEmpty_false (s : string) : isEmpty s = false <-> s <> EmptyString.
Proof. destruct s; simpl; split; congruence. Qed.

Lemma resolveEvent_eq event d :
  resolveEvent event d =
    if skipped event then (tt, d, [])
    else
      let uidPair := foldedEventAddressOf event in
      if decide (uidPair ∈ requestedAddresses d) then (tt, d, [])
      else (tt, set_requestedAddresses ({[uidPair]} ∪ requestedAddresses d) d,
            [Call (requestFor uidPair)]).
Proof.
  unfold resolveEvent, skipped.
  destruct (isEmpty (localUid event) || isEmpty (remoteUid event)); [done|].
  cbn. destruct (decide _); done.
Qed.

Lemma checkIfResolved_eq cache d :
  checkIfResolved cache d =
    if bool_decide (events d = []) then (tt, d, [])
    else if (resolvedAddresses d <? Z.of_nat (size (requestedAddresses d)))%Z
    then (tt, d, [])
    else (tt, set_events [] d,
          [Emit (EventsResolved (applyResolvedContacts cache d)); Emit Finished]).
Proof.
  unfold checkIfResolved. cbn.
  destruct (bool_decide _); [done|].
  destruct (_ <? _)%Z; done.
Qed.

Lemma addressResolved_eq cache d :
  addressResolved cache d =
    checkIfResolved cache (set_resolvedAddresses (resolvedAddresses d + 1)%Z d).
Proof.
  unfold addressResolved, bind, modify.
  destruct (checkIfResolved cache _) as [[[] d'] out]. done.
Qed.

Lemma addLoop_eq place l d :
  addLoop place l d =
    (tt,
     {| events := fold_left (fun held event => place event held) l (events d);
        requestedAddresses :=
          list_to_set (freshKeys (requestedAddresses d) l) ∪ requestedAddresses d;
        resolvedAddresses := resolvedAddresses d |},
     Call <$> (requestFor <$> freshKeys (requestedAddresses d) l)).
Proof.
  revert d. induction l as [|event rest IH]; intros d.
  - destruct d as [evs X n]. unfold addLoop. simpl. unfold ret.
    by rewrite (left_id_L ∅ (∪)).
  - unfold addLoop in *. simpl foreach. unfold bind at 1. unfold bind at 1.
    rewrite resolveEvent_eq. simpl.
    destruct (skipped event); simpl.
    + rewrite IH. simpl. done.
    + destruct (decide _) as [Hin|Hin]; simpl; rewrite IH; simpl; [done|].
      f_equal. f_equal. f_equal. set_solver.
Qed.

Lemma appendEvents_eq cache l d :
  appendEvents cache l d =
    bind (addLoop (fun event held => held ++ [event]) l)
         (fun _ => checkIfResolved cache) d.
Proof. done. Qed.

Lemma prependEvents_eq cache l d :
  prependEvents cache l d =
    bind (addLoop (fun event held => event :: held) l)
         (fun _ => checkIfResolved cache) d.
Proof. done. Qed.

Lemma fold_left_append l (held : list Event) :
  fold_left (fun held event => held ++ [event]) l held = held ++ l.
Proof.
  revert held. induction l as [|event rest IH]; intros held; cbn.
  - by rewrite app_nil_r.
  - rewrite IH. by rewrite <- app_assoc.
Qed.

Lemma fold_left_prepend l (held : list Event) :
  fold_left (fun held event => event :: held) l held = rev l ++ held.
Proof.
  revert held. induction l as [|event rest IH]; intros held; cbn.
  - done.
  - rewrite IH. by rewrite <- app_assoc.
Qed.

(** ** The folded pairs of a loop *)

Lemma keysOf_cons event l :
  keysOf (event :: l) =
    if skipped event then keysOf l else foldedEventAddressOf event :: keysOf l.
Proof.
  unfold keysOf. rewrite filter_cons.
  destruct (skipped event); simpl; done.
Qed.

Lemma keysOf_app l1 l2 : keysOf (l1 ++ l2) = keysOf l1 ++ keysOf l2.
Proof. unfold keysOf. by rewrite filter_app, fmap_app. Qed.

Lemma elem_of_freshKeys X l (uidPair : UidPair) :
  uidPair ∈ freshKeys X l <-> uidPair ∈ keysOf l /\ uidPair ∉ X.
Proof.
  revert X. induction l as [|event rest IH]; intros X.
  - simpl. unfold keysOf. simpl. rewrite !elem_of_nil. tauto.
  - rewrite keysOf_cons. simpl. destruct (skipped event).
    + apply IH.
    + destruct (decide _) as [Hin|Hin].
      * rewrite IH, elem_of_cons. split; [tauto|].
        intros [[->|Hk] HX]; [done|tauto].
      * rewrite !elem_of_cons, IH, elem_of_union, elem_of_singleton.
        destruct (decide (uidPair = foldedEventAddressOf event)) as [->|Hne];
          tauto.
Qed.

Lemma NoDup_freshKeys X l : NoDup (freshKeys X l).
Proof.
  revert X. induction l as [|event rest IH]; intros X; simpl.
  - constructor.
  - destruct (skipped event); [apply IH|].
    destruct (decide _) as [Hin|Hin]; [apply IH|].
    constructor; [|apply IH].
    rewrite elem_of_freshKeys, elem_of_union, elem_of_singleton. tauto.
Qed.


Lemma size_freshKeys X l :
  size (list_to_set (freshKeys X l) ∪ X) = length (freshKeys X l) + size X.
Proof.
  rewrite size_union.
  - rewrite size_list_to_set by apply NoDup_freshKeys. done.
  - intros uidPair. rewrite elem_of_list_to_set, elem_of_freshKeys. tauto.
Qed.

(** [requestFor] tells folded pairs apart. *)
Lemma requestFor_inj (p q : UidPair) : requestFor p = requestFor q -> p = q.
Proof.
  destruct p as [p1 p2], q as [q1 q2]. unfold requestFor. simpl.
  destruct (isEmpty p1) eqn:Hp1, (isEmpty q1) eqn:Hq1;
    try destruct (isEmpty p2) eqn:Hp2; try destruct (isEmpty q2) eqn:Hq2;
    intros Heq; inversion Heq; subst;
    rewrite ?isEmpty_true in *; subst; try done; try congruence.
Qed.

(** ** State and output of composed operations *)

Lemma state_of_bind {A B} (m : Op A) (k : A -> Op B) d :
  state_of (bind m k d) = state_of (k (value_of (m d)) (state_of (m d))).
Proof.
  unfold bind, state_of, value_of.
  destruct (m d) as [[a d1] o1]. simpl. by destruct (k a d1) as [[b d2] o2].
Qed.

Lemma output_of_bind {A B} (m : Op A) (k : A -> Op B) d :
  output_of (bind m k d) =
    output_of (m d) ++ output_of (k (value_of (m d)) (state_of (m d))).
Proof.
  unfold bind, state_of, value_of, output_of.
  destruct (m d) as [[a d1] o1]. simpl. by destruct (k a d1) as [[b d2] o2].
Qed.

Lemma calls_app (o1 o2 : list Action) : calls (o1 ++ o2) = calls o1 ++ calls o2.
Proof. apply omap_app. Qed.

Lemma emits_app (o1 o2 : list Action) : emits (o1 ++ o2) = emits o1 ++ emits o2.
Proof. apply omap_app. Qed.

Lemma calls_Call (rs : list Request) : calls (Call <$> rs) = rs.
Proof. unfold calls. induction rs as [|r rs IH]; simpl; [done|]. by f_equal. Qed.

Lemma emits_Call (rs : list Request) : emits (Call <$> rs) = [].
Proof. unfold emits. induction rs as [|r rs IH]; simpl; done. Qed.

(** The completion check sends no request and touches neither the set
    of requested pairs nor the counter. *)
Lemma checkIfResolved_keeps cache d :
  requestedAddresses (state_of (checkIfResolved cache d)) = requestedAddresses d
  /\ resolvedAddresses (state_of (checkIfResolved cache d)) = resolvedAddresses d
  /\ calls (output_of (checkIfResolved cache d)) = [].
Proof.
  rewrite checkIfResolved_eq.
  destruct (bool_decide _); [done|]. destruct (_ <? _)%Z; done.
Qed.

Lemma checkIfResolved_due cache d :
  checkIfResolved cache d =
    if due d then
      (tt, set_events [] d,
       [Emit (EventsResolved (applyResolvedContacts cache d)); Emit Finished])
    else (tt, d, []).
Proof.
  rewrite checkIfResolved_eq. unfold due.
  destruct (bool_decide _); [done|]. destruct (_ <? _)%Z; done.
Qed.

Lemma state_of_addLoop place l d :
  state_of (addLoop place l d) =
    {| events := fold_left (fun held event => place event held) l (events d);
       requestedAddresses :=
         list_to_set (freshKeys (requestedAddresses d) l) ∪ requestedAddresses d;
       resolvedAddresses := resolvedAddresses d |}.
Proof. by rewrite addLoop_eq. Qed.

Lemma output_of_addLoop place l d :
  output_of (addLoop place l d) =
    Call <$> (requestFor <$> freshKeys (requestedAddresses d) l).
Proof. by rewrite addLoop_eq. Qed.

Lemma freshKeys_app X l1 l2 :
  freshKeys X (l1 ++ l2) =
    freshKeys X l1 ++ freshKeys (list_to_set (freshKeys X l1) ∪ X) l2.
Proof.
  revert X. induction l1 as [|event rest IH]; intros X; simpl.
  - by rewrite (left_id_L ∅ (∪)).
  - destruct (skipped event); [apply IH|].
    destruct (decide _) as [Hin|Hin]; [apply IH|].
    rewrite IH. simpl. do 2 f_equal. f_equal.
    apply set_eq. intros uidPair.
    rewrite !elem_of_union, elem_of_singleton. tauto.
Qed.

(** ** Requests and counters along a run *)

Lemma addThenCheck_requests place cache l d :
  let r := bind (addLoop place l) (fun _ => checkIfResolved cache) d in
  requestedAddresses (state_of r) =
    list_to_set (freshKeys (requestedAddresses d) l) ∪ requestedAddresses d
  /\ calls (output_of r) = requestFor <$> freshKeys (requestedAddresses d) l
  /\ resolvedAddresses (state_of r) = resolvedAddresses d.
Proof.
  intros r. subst r. rewrite state_of_bind, output_of_bind, calls_app.
  destruct (checkIfResolved_keeps cache (state_of (addLoop place l d)))
    as (-> & -> & ->).
  rewrite state_of_addLoop, output_of_addLoop, calls_Call, app_nil_r. done.
Qed.

Lemma perform_requests step d :
  requestedAddresses (state_of (perform step d)) =
    list_to_set (freshKeys (requestedAddresses d) (batchOf step))
    ∪ requestedAddresses d
  /\ calls (output_of (perform step d)) =
       requestFor <$> freshKeys (requestedAddresses d) (batchOf step).
Proof.
  destruct step as [cache [l|l| |]]; unfold perform, batchOf; simpl.
  - rewrite appendEvents_eq.
    destruct (addThenCheck_requests (fun event held => held ++ [event]) cache l d)
      as (H1 & H2 & _). done.
  - rewrite prependEvents_eq.
    destruct (addThenCheck_requests (fun event held => event :: held) cache l d)
      as (H1 & H2 & _). done.
  - rewrite addressResolved_eq.
    destruct (checkIfResolved_keeps cache
                (set_resolvedAddresses (resolvedAddresses d + 1)%Z d))
      as (-> & _ & ->).
    simpl. by rewrite (left_id_L ∅ (∪)).
  - simpl. by rewrite (left_id_L ∅ (∪)).
Qed.

Lemma perform_resolved step d :
  resolvedAddresses (state_of (perform step d)) =
    match snd step with
    | AddressResolved => (resolvedAddresses d + 1)%Z
    | _ => resolvedAddresses d
    end.
Proof.
  destruct step as [cache [l|l| |]]; unfold perform; simpl.
  - rewrite appendEvents_eq.
    by destruct (addThenCheck_requests (fun event held => held ++ [event]) cache l d)
      as (_ & _ & ->).
  - rewrite prependEvents_eq.
    by destruct (addThenCheck_requests (fun event held => event :: held) cache l d)
      as (_ & _ & ->).
  - rewrite addressResolved_eq.
    by destruct (checkIfResolved_keeps cache
                (set_resolvedAddresses (resolvedAddresses d + 1)%Z d))
      as (_ & -> & _).
  - done.
Qed.

Lemma performAll_nil d :
  performAll ([] : list (@SeasideCache QContact * Operation)) d = (tt, d, []).
Proof. done. Qed.

Lemma performAll_cons step steps d :
  performAll (step :: steps) d =
    bind (perform step) (fun _ => performAll steps) d.
Proof. done. Qed.

Lemma performAll_requests steps d :
  requestedAddresses (state_of (performAll steps d)) =
    list_to_set (freshKeys (requestedAddresses d) (steps ≫= batchOf))
    ∪ requestedAddresses d
  /\ calls (output_of (performAll steps d)) =
       requestFor <$> freshKeys (requestedAddresses d) (steps ≫= batchOf).
Proof.
  revert d. induction steps as [|step steps IH]; intros d.
  - simpl. by rewrite (left_id_L ∅ (∪)).
  - rewrite performAll_cons, state_of_bind, output_of_bind, calls_app.
    destruct (IH (state_of (perform step d))) as [-> ->].
    destruct (perform_requests step d) as [-> ->].
    simpl. rewrite freshKeys_app, fmap_app. split; [|done].
    rewrite list_to_set_app_L.
    apply set_eq. intros uidPair. rewrite !elem_of_union. tauto.
Qed.


(** ** Address folding *)

Lemma foldedAddress_phone (remoteUid : string) :
  foldedAddress EmptyString remoteUid =
    (EmptyString,
     toCaseFolded (if isEmpty (minimizePhoneNumber remoteUid) then remoteUid
                   else minimizePhoneNumber remoteUid)).
Proof. done. Qed.

(** C8: folding an address pair is a total, deterministic function.  When
    the local address denotes phone comparison the key is the empty
    string with the case-folded minimized remote address, or with the
    case-folded raw remote address when minimization gives the empty
    string; the minimized number being a canonical digit form, which case
    folding leaves as it is, the former is the minimized remote address
    itself.  Otherwise the key is the pair of the two case-folded
    addresses. *)
Theorem foldedEventAddress_key (luid ruid : string) :
  (localUidComparesPhoneNumbers luid = true ->
     foldedEventAddress luid ruid =
       (EmptyString,
        toCaseFolded (if isEmpty (minimizePhoneNumber ruid) then ruid
                      else minimizePhoneNumber ruid)))
  /\ (localUidComparesPhoneNumbers luid = true ->
      toCaseFolded (minimizePhoneNumber ruid) = minimizePhoneNumber ruid ->
      foldedEventAddress luid ruid =
        (EmptyString,
         if isEmpty (minimizePhoneNumber ruid) then toCaseFolded ruid
         else minimizePhoneNumber ruid))
  /\ (localUidComparesPhoneNumbers luid = false ->
        foldedEventAddress luid ruid = (toCaseFolded luid, toCaseFolded ruid))
  /\ (forall luid' ruid',
        luid' = luid -> ruid' = ruid ->
        foldedEventAddress luid' ruid' = foldedEventAddress luid ruid)
  /\ (exists uidPair : UidPair, foldedEventAddress luid ruid = uidPair)
  /\ (forall event,
        localUid event = luid -> remoteUid event = ruid ->
        foldedEventAddressOf event = foldedEventAddress luid ruid).
Proof.
  unfold foldedEventAddress, foldedEventAddressOf. split_and!.
  - intros ->. apply foldedAddress_phone.
  - intros -> Hdigits. rewrite foldedAddress_phone.
    destruct (isEmpty (minimizePhoneNumber ruid)); [done|].
    by rewrite Hdigits.
  - by intros ->.
  - by intros luid' ruid' -> ->.
  - by eexists.
  - by intros event -> ->.
Qed.

(** ** The contact-application pass *)

Lemma applyContact_eq cache event :
  applyContact cache event = setContacts (contactsFor cache (lookupItem cache event)) event.
Proof. unfold applyContact, contactsFor. by destruct (lookupItem cache event). Qed.

(** C7: the pass goes over every held event and keeps its identifier and
    addresses.  With the raw addresses it asks the cache by phone number
    (remote address) when the local address denotes phone comparison,
    else by email (local address) when the remote address is empty, else
    by the account pair; the contact list becomes the single entry
    (contact id, display label) of the match, or the empty list. *)
Theorem applyResolvedContacts_each cache d :
  length (applyResolvedContacts cache d) = length (events d)
  /\ forall (i : nat) event,
       events d !! i = Some event ->
       exists resolved,
         applyResolvedContacts cache d !! i = Some resolved
         /\ eventId resolved = eventId event
         /\ localUid resolved = localUid event
         /\ remoteUid resolved = remoteUid event
         /\ contacts resolved =
              contactsFor cache
                (if localUidComparesPhoneNumbers (localUid event) then
                   itemByPhoneNumber cache (remoteUid event) true
                 else if isEmpty (remoteUid event) then
                   itemByEmailAddress cache (localUid event) true
                 else
                   itemByOnlineAccount cache (localUid event) (remoteUid event) true)
         /\ (forall item,
               lookupItem cache event = Some item ->
               contacts resolved =
                 [(iid item,
                   generateDisplayLabel cache (contact item) (displayLabelOrder cache))])
         /\ (lookupItem cache event = None -> contacts resolved = []).
Proof.
  unfold applyResolvedContacts. split; [by rewrite length_map|].
  intros i event Hi. exists (applyContact cache event).
  split; [by rewrite list_lookup_fmap, Hi|].
  rewrite applyContact_eq. simpl. repeat split; try done.
  - by intros item ->.
  - by intros ->.
Qed.

(** C9: the snapshot [events()] changes nothing: state and output are
    as before, so the session goes on, and a second call, the cache being
    the same, gives the same list as the first.  An event whose address
    the cache has no item for comes with an empty contact list. *)
Theorem events_snapshot_idempotent cache d :
  let first := ContactResolver_events cache d in
  let second := ContactResolver_events cache (state_of first) in
  state_of first = d
  /\ output_of first = []
  /\ value_of second = value_of first
  /\ state_of second = d
  /\ value_of (isResolving (state_of first)) = value_of (isResolving d)
  /\ value_of first = applyResolvedContacts cache d
  /\ forall (i : nat) event,
       events d !! i = Some event ->
       lookupItem cache event = None ->
       value_of first !! i = Some (setContacts [] event).
Proof.
  simpl. repeat split.
  intros i event Hi Hnone. unfold applyResolvedContacts.
  rewrite list_lookup_fmap, Hi. simpl.
  by rewrite applyContact_eq, Hnone.
Qed.

(** ** Completion *)



(** ** The order of the held events *)

Lemma addThenCheck_events place cache l d :
  let r := bind (addLoop place l) (fun _ => checkIfResolved cache) d in
  let held := fold_left (fun held event => place event held) l (events d) in
  emits (output_of r) = [] /\ events (state_of r) = held
  \/ emits (output_of r) = [EventsResolved (applyContact cache <$> held); Finished]
     /\ events (state_of r) = [].
Proof.
  intros r held. subst r held.
  rewrite state_of_bind, output_of_bind, emits_app, output_of_addLoop, emits_Call.
  rewrite checkIfResolved_due.
  destruct (due _); simpl; rewrite ?state_of_addLoop; [right|left]; done.
Qed.

(** C2, as the code has it: when the first batch leaves the session
    unfinished, a second appended batch comes after the events held, in
    its order, and a prepended batch comes before them with its events in
    reverse order, each event being put in front of the ones before it.
    The order is that of the events held after the second operation, or
    of the list delivered by it. *)
Theorem events_order_of_two_batches cache1 cache2 d l1 l2 :
  emits (output_of (appendEvents cache1 l1 d)) = [] ->
  let d1 := state_of (appendEvents cache1 l1 d) in
  let appended := appendEvents cache2 l2 d1 in
  let prepended := prependEvents cache2 l2 d1 in
  events d1 = events d ++ l1
  /\ (emits (output_of appended) = []
      /\ events (state_of appended) = events d ++ l1 ++ l2
      \/ emits (output_of appended) =
           [EventsResolved (applyContact cache2 <$> (events d ++ l1 ++ l2));
            Finished])
  /\ (emits (output_of prepended) = []
      /\ events (state_of prepended) = rev l2 ++ events d ++ l1
      \/ emits (output_of prepended) =
           [EventsResolved (applyContact cache2 <$> (rev l2 ++ events d ++ l1));
            Finished]).
Proof.
  intros Hquiet d1 appended prepended.
  assert (Hd1 : events d1 = events d ++ l1).
  { subst d1. revert Hquiet. rewrite appendEvents_eq.
    destruct (addThenCheck_events (fun event held => held ++ [event]) cache1 l1 d)
      as [[_ ->]|[-> _]]; [|done].
    by rewrite fold_left_append. }
  split; [done|]. split.
  - subst appended. rewrite appendEvents_eq.
    destruct (addThenCheck_events (fun event held => held ++ [event]) cache2 l2 d1)
      as [[-> ->]|[-> _]]; rewrite fold_left_append, Hd1, <- app_assoc;
      [by left|by right].
  - subst prepended. rewrite prependEvents_eq.
    destruct (addThenCheck_events (fun event held => event :: held) cache2 l2 d1)
      as [[-> ->]|[-> _]]; rewrite fold_left_prepend, Hd1;
      [by left|by right].
Qed.

(** ** Which request an event causes *)

Lemma requestFor_cases (uidPair : UidPair) :
  requestFor uidPair =
    if isEmpty (fst uidPair) then ResolvePhoneNumber (snd uidPair) true
    else if isEmpty (snd uidPair) then ResolveEmailAddress (fst uidPair) true
    else ResolveOnlineAccount (fst uidPair) (snd uidPair) true.
Proof. done. Qed.

Lemma foldedEventAddressOf_phone event :
  localUidComparesPhoneNumbers (localUid event) = true ->
  fst (foldedEventAddressOf event) = EmptyString.
Proof. unfold foldedEventAddressOf, foldedEventAddress. by intros ->. Qed.

(** C3, as the code has it: of the two events only the account form
    causes a request, the online-account request for its case-folded
    pair; the event with the empty local address is skipped.  An event
    with two non-empty addresses whose folded pair is new causes the
    request its folded pair selects: by phone number when the folded local
    address is empty, which is the case when the local address denotes
    phone comparison, by email address when the folded remote address is
    empty, by online account otherwise. *)
Theorem appendEvents_phone_and_account_form cache d (id1 id2 : Z)
    (cs1 cs2 : list Contact) :
  events d = [] ->
  localUidComparesPhoneNumbers "acct1" = false ->
  toCaseFolded "acct1" <> EmptyString ->
  toCaseFolded "acct1-contact" <> EmptyString ->
  (toCaseFolded "acct1", toCaseFolded "acct1-contact") ∉ requestedAddresses d ->
  calls (output_of
           (appendEvents cache
              [mkEvent id1 "" "+1-555-0100" cs1;
               mkEvent id2 "acct1" "acct1-contact" cs2] d)) =
    [ResolveOnlineAccount (toCaseFolded "acct1") (toCaseFolded "acct1-contact") true]
  /\ (forall event, skipped event = true -> resolveEvent event d = (tt, d, []))
  /\ (forall event,
        skipped event = false ->
        let uidPair := foldedEventAddressOf event in
        uidPair ∉ requestedAddresses d ->
        output_of (resolveEvent event d) =
          [Call (if isEmpty (fst uidPair) then ResolvePhoneNumber (snd uidPair) true
                 else if isEmpty (snd uidPair) then
                   ResolveEmailAddress (fst uidPair) true
                 else ResolveOnlineAccount (fst uidPair) (snd uidPair) true)])
  /\ (forall event,
        localUidComparesPhoneNumbers (localUid event) = true ->
        fst (foldedEventAddressOf event) = EmptyString).
Proof.
  intros _ Hacct Hlocal Hremote Hnew. repeat split.
  - rewrite appendEvents_eq.
    destruct (addThenCheck_requests (fun event held => held ++ [event]) cache
                [mkEvent id1 "" "+1-555-0100" cs1;
                 mkEvent id2 "acct1" "acct1-contact" cs2] d) as (_ & -> & _).
    simpl. unfold foldedEventAddressOf, foldedEventAddress. simpl.
    rewrite Hacct. rewrite decide_False by done. simpl.
    rewrite requestFor_cases. simpl.
    apply isEmpty_false in Hlocal, Hremote. by rewrite Hlocal, Hremote.
  - intros event Hskip. by rewrite resolveEvent_eq, Hskip.
  - intros event Hskip uidPair Hfresh. subst uidPair.
    rewrite resolveEvent_eq, Hskip. simpl.
    by rewrite decide_False.
  - apply foldedEventAddressOf_phone.
Qed.

(** ** The requests of a run *)

Lemma elem_of_keysOf (uidPair : UidPair) l :
  uidPair ∈ keysOf l <->
    exists event,
      event ∈ l /\ skipped event = false /\ uidPair = foldedEventAddressOf event.
Proof.
  unfold keysOf. rewrite list_elem_of_fmap. split.
  - intros (event & -> & Hin). apply list_elem_of_filter in Hin as [Hskip Hin].
    by exists event.
  - intros (event & Hin & Hskip & ->). exists event. split; [done|].
    by apply list_elem_of_filter.
Qed.

#[local] Instance requestFor_Inj : Inj (=) (=) requestFor.
Proof. intros p q. apply requestFor_inj. Qed.

(** C4, as the code has it: in a run of appends, prepends and
    callbacks from any state, in the first session or a later one, no
    request is sent twice, and a request is sent for a folded pair exactly
    when an event of the run with two non-empty addresses folds to it and
    the pair was not requested before the run: the requests are, one for
    one, the distinct folded pairs of those events that are not in the set
    of requested pairs at the start.  For a new resolver these are all the
    distinct folded pairs of those events. *)
Theorem one_request_per_distinct_key steps d :
  let out := calls (output_of (performAll steps d)) in
  let out0 := calls (output_of (performAll steps initial)) in
  NoDup out
  /\ (forall uidPair,
        requestFor uidPair ∈ out <->
          uidPair ∈ requestKeys steps /\ uidPair ∉ requestedAddresses d)
  /\ (forall r, r ∈ out ->
        exists uidPair, r = requestFor uidPair /\ uidPair ∈ requestKeys steps)
  /\ (forall p q : UidPair, requestFor p = requestFor q -> p = q)
  /\ out0 ≡ₚ requestFor <$> elements (list_to_set (requestKeys steps) : gset UidPair)
  /\ length out0 = size (list_to_set (requestKeys steps) : gset UidPair)
  /\ out ≡ₚ requestFor
              <$> elements (list_to_set (requestKeys steps) ∖ requestedAddresses d)
  /\ length out = size (list_to_set (requestKeys steps) ∖ requestedAddresses d).
Proof.
  intros out out0. subst out out0.
  destruct (performAll_requests steps d) as [_ ->].
  destruct (performAll_requests steps initial) as [_ ->].
  fold (requestKeys steps).
  assert (Hperm : freshKeys ∅ (steps ≫= batchOf)
                  ≡ₚ elements (list_to_set (requestKeys steps) : gset UidPair)).
  { apply NoDup_Permutation; [apply NoDup_freshKeys|apply NoDup_elements|].
    intros uidPair.
    rewrite elem_of_elements, elem_of_list_to_set, elem_of_freshKeys.
    unfold requestKeys. set_solver. }
  assert (Hnew : freshKeys (requestedAddresses d) (steps ≫= batchOf)
                 ≡ₚ elements (list_to_set (requestKeys steps)
                               ∖ requestedAddresses d)).
  { apply NoDup_Permutation; [apply NoDup_freshKeys|apply NoDup_elements|].
    intros uidPair.
    rewrite elem_of_elements, elem_of_difference, elem_of_list_to_set,
      elem_of_freshKeys.
    done. }
  split_and!.
  - apply (NoDup_fmap_2 _), NoDup_freshKeys.
  - intros uidPair. rewrite (list_elem_of_fmap_inj _). apply elem_of_freshKeys.
  - intros r (uidPair & -> & Hin)%list_elem_of_fmap.
    exists uidPair. split; [done|]. by apply elem_of_freshKeys in Hin as [? _].
  - apply requestFor_inj.
  - simpl. by rewrite Hperm.
  - simpl. rewrite length_fmap, Hperm. done.
  - by rewrite Hnew.
  - rewrite length_fmap, Hnew. done.
Qed.


(** ** The email request *)

Section CaseFolding.

(** Case folding maps no character away. *)
Hypothesis toCaseFolded_nonempty :
  forall s, toCaseFolded s = EmptyString -> s = EmptyString.

Lemma foldedEventAddressOf_remote event :
  skipped event = false ->
  snd (foldedEventAddressOf event) <> EmptyString.
Proof.
  unfold skipped. intros [Hlocal Hremote]%orb_false_elim.
  apply isEmpty_false in Hremote.
  unfold foldedEventAddressOf, foldedEventAddress.
  destruct (localUidComparesPhoneNumbers (localUid event)); simpl.
  - intros Hfold%toCaseFolded_nonempty.
    destruct (isEmpty (minimizePhoneNumber (remoteUid event))) eqn:Hmin; [done|].
    by apply isEmpty_false in Hmin.
  - by intros Hfold%toCaseFolded_nonempty.
Qed.

(** C10: a request is sent only for an event with two non-empty
    addresses, the second component of the folded pair of such an event
    is not empty, and so no run of the resolver calls
    [resolveEmailAddress]. *)
Theorem resolveEmailAddress_never_called steps d :
  (forall event d', skipped event = true -> output_of (resolveEvent event d') = [])
  /\ (forall event,
        skipped event = false ->
        snd (foldedEventAddressOf event) <> EmptyString)
  /\ (forall address requireComplete,
        ResolveEmailAddress address requireComplete
          ∉ calls (output_of (performAll steps d))).
Proof.
  repeat split.
  - intros event d' Hskip. by rewrite resolveEvent_eq, Hskip.
  - apply foldedEventAddressOf_remote.
  - intros address requireComplete.
    destruct (performAll_requests steps d) as [_ ->].
    intros (uidPair & Hreq & Hin)%list_elem_of_fmap.
    apply elem_of_freshKeys in Hin as [Hin _].
    apply elem_of_keysOf in Hin as (event & _ & Hskip & ->).
    apply foldedEventAddressOf_remote, isEmpty_false in Hskip.
    rewrite requestFor_cases, Hskip in Hreq.
    by destruct (isEmpty (fst (foldedEventAddressOf event))).
Qed.

End CaseFolding.

(** ** The counter and the number of requests *)

Lemma react_balance cache (st : Stimulus) (sys sys' : System) (sigs : list Signal) :
  react cache st sys = Some (sys', sigs) ->
  (resolvedAddresses (resolver sys) + Z.of_nat (length (outstanding sys)))%Z
    = Z.of_nat (size (requestedAddresses (resolver sys))) ->
  (resolvedAddresses (resolver sys') + Z.of_nat (length (outstanding sys')))%Z
    = Z.of_nat (size (requestedAddresses (resolver sys'))).
Proof.
  destruct st as [op|i]; simpl.
  - intros Hreact Hbal.
    assert (Hop : op <> AddressResolved /\
                  sys' = fst (after sys (outstanding sys)
                                (perform (cache, op) (resolver sys)))).
    { destruct op; try done; by inversion Hreact. }
    destruct Hop as [Hop ->]. simpl.
    destruct (perform_requests (cache, op) (resolver sys)) as [-> ->].
    rewrite perform_resolved, size_freshKeys, length_app, length_fmap. simpl.
    destruct op; try done; lia.
  - destruct (outstanding sys !! i) as [r|] eqn:Hi; [|done].
    intros [= <- _] Hbal. simpl.
    change (addressResolved cache (resolver sys))
      with (perform (cache, AddressResolved) (resolver sys)).
    destruct (perform_requests (cache, AddressResolved) (resolver sys)) as [-> ->].
    rewrite perform_resolved. simpl.
    rewrite (left_id_L ∅ (∪)), app_nil_r, length_delete by done.
    apply lookup_lt_Some in Hi. lia.
Qed.

Lemma reachable_balance (sys : System) :
  reachable sys ->
  (resolvedAddresses (resolver sys) + Z.of_nat (length (outstanding sys)))%Z
    = Z.of_nat (size (requestedAddresses (resolver sys))).
Proof.
  induction 1 as [|cache st sys sys' sigs _ IH Hreact]; [done|].
  by eapply react_balance.
Qed.

(** C6: in every state the resolver reaches with SeasideCache by
    appends, prepends, snapshots and completion callbacks, each callback
    answering a request that is outstanding, the counter of callbacks is
    at most the number of requested pairs. *)
Theorem resolvedAddresses_le_requested (sys : System) :
  reachable sys ->
  (resolvedAddresses (resolver sys)
     <= Z.of_nat (size (requestedAddresses (resolver sys))))%Z.
Proof. intros Hsys%reachable_balance. lia. Qed.

(** * Further properties *)

(** ** Every operation is a preparation and a completion check *)

Lemma perform_eq cache (op : Operation) d :
  op <> Events ->
  perform (cache, op) d =
    (tt, state_of (checkIfResolved cache (prepared op d)),
     (Call <$> (requestFor <$> freshKeys (requestedAddresses d) (batchOf (cache, op))))
       ++ output_of (checkIfResolved cache (prepared op d))).
Proof.
  intros Hop. destruct op as [l|l| |]; [| | |done]; unfold perform; simpl.
  - rewrite appendEvents_eq. unfold bind at 1.
    rewrite addLoop_eq, fold_left_append.
    by destruct (checkIfResolved cache _) as [[[] d2] o2].
  - rewrite prependEvents_eq. unfold bind at 1.
    rewrite addLoop_eq, fold_left_prepend.
    by destruct (checkIfResolved cache _) as [[[] d2] o2].
  - rewrite addressResolved_eq.
    by destruct (checkIfResolved cache _) as [[[] d2] o2].
Qed.

Lemma perform_Events cache d : perform (cache, Events) d = (tt, d, []).
Proof. done. Qed.

Lemma state_of_perform cache (op : Operation) d :
  op <> Events ->
  state_of (perform (cache, op) d) =
    if due (prepared op d) then set_events [] (prepared op d) else prepared op d.
Proof.
  intros Hop. rewrite perform_eq by done. simpl.
  rewrite checkIfResolved_due. by destruct (due _).
Qed.

Lemma emits_of_perform cache (op : Operation) d :
  op <> Events ->
  emits (output_of (perform (cache, op) d)) =
    if due (prepared op d) then
      [EventsResolved (applyResolvedContacts cache (prepared op d)); Finished]
    else [].
Proof.
  intros Hop. rewrite perform_eq by done. simpl.
  rewrite emits_app, emits_Call, checkIfResolved_due. by destruct (due _).
Qed.

Lemma due_true d :
  due d = true <->
    events d <> [] /\ (Z.of_nat (size (requestedAddresses d)) <= resolvedAddresses d)%Z.
Proof.
  unfold due. rewrite andb_true_iff, !negb_true_iff, bool_decide_eq_false, Z.ltb_ge.
  done.
Qed.

Lemma due_false d :
  due d = false <->
    events d = [] \/ (resolvedAddresses d < Z.of_nat (size (requestedAddresses d)))%Z.
Proof.
  unfold due. rewrite andb_false_iff, !negb_false_iff, bool_decide_eq_true, Z.ltb_lt.
  done.
Qed.

(** ** Resolver and cache between two stimuli *)

Lemma react_client cache (op : Operation) (sys : System) :
  op <> AddressResolved ->
  react cache (Client op) sys =
    Some (after sys (outstanding sys) (perform (cache, op) (resolver sys))).
Proof. by destruct op. Qed.

Lemma react_completion cache (i : nat) (sys : System) (r : Request) :
  outstanding sys !! i = Some r ->
  react cache (Completion i) sys =
    Some (after sys (delete i (outstanding sys))
            (perform (cache, AddressResolved) (resolver sys))).
Proof. intros Hi. simpl. by rewrite Hi. Qed.

Lemma react_completion_inv cache (i : nat) (sys sys' : System) (sigs : list Signal) :
  react cache (Completion i) sys = Some (sys', sigs) ->
  exists r, outstanding sys !! i = Some r.
Proof. simpl. destruct (outstanding sys !! i) as [r|]; [by exists r|done]. Qed.

Lemma settle_consistent (p : ContactResolverPrivate) (pending : list Request) :
  (resolvedAddresses p + Z.of_nat (length pending))%Z
    = Z.of_nat (size (requestedAddresses p)) ->
  (events p = [] -> pending = []) ->
  consistent {| resolver := if due p then set_events [] p else p;
                outstanding := pending |}.
Proof.
  intros Hbal Hidle. unfold consistent.
  destruct (due p) eqn:Hdue; simpl.
  - apply due_true in Hdue as [Hheld Hge].
    assert (pending = []) as -> by (apply length_zero_iff_nil; lia).
    done.
  - split; [done|]. apply due_false in Hdue as [Hnone|Hlt].
    + by rewrite Hnone, Hidle.
    + split.
      * intros Hnone. by apply Hidle.
      * intros ->. simpl in Hbal. lia.
Qed.

Lemma freshKeys_nil X : freshKeys X [] = [].
Proof. done. Qed.

Lemma react_consistent cache (st : Stimulus) (sys sys' : System) (sigs : list Signal) :
  react cache st sys = Some (sys', sigs) ->
  consistent sys -> consistent sys'.
Proof.
  intros Hreact [Hbal Hidle].
  destruct st as [op|i].
  - assert (Hadd : forall op' : Operation,
              op' <> Events -> op' <> AddressResolved ->
              (events (prepared op' (resolver sys)) = [] ->
               events (resolver sys) = [] /\ batchOf (cache, op') = []) ->
              length (freshKeys (requestedAddresses (resolver sys))
                        (batchOf (cache, op')))
                + size (requestedAddresses (resolver sys))
              = size (requestedAddresses (prepared op' (resolver sys))) ->
              resolvedAddresses (prepared op' (resolver sys))
              = resolvedAddresses (resolver sys) ->
              consistent (fst (after sys (outstanding sys)
                                 (perform (cache, op') (resolver sys))))).
    { intros op' Hop Hcb Hnone Hsize Hres. unfold after. simpl.
      rewrite state_of_perform, perform_eq by done. simpl.
      rewrite calls_app, calls_Call.
      destruct (checkIfResolved_keeps cache (prepared op' (resolver sys)))
        as (_ & _ & ->).
      rewrite app_nil_r. apply settle_consistent.
      - rewrite length_app, length_fmap, Hres. lia.
      - intros [Hd ->]%Hnone. by rewrite (proj1 Hidle Hd). }
    destruct op as [l|l| |]; [| |done|].
    + inversion Hreact; subst. apply Hadd; try done; simpl.
      * by intros [Hd ->]%app_eq_nil.
      * by rewrite size_freshKeys.
    + inversion Hreact; subst. apply Hadd; try done; simpl.
      * intros [Hl Hd]%app_eq_nil. split; [done|].
        destruct l as [|event l]; [done|]. simpl in Hl.
        by apply app_eq_nil in Hl as [_ ?].
      * by rewrite size_freshKeys.
    + inversion Hreact; subst. unfold consistent. simpl.
      by rewrite app_nil_r.
  - destruct (react_completion_inv _ _ _ _ _ Hreact) as [r Hi].
    rewrite (react_completion _ _ _ r) in Hreact by done.
    inversion Hreact as [[Hsys Hsigs]]. clear Hreact Hsigs. unfold after. simpl.
    rewrite state_of_perform, perform_eq by done. simpl.
    destruct (checkIfResolved_keeps cache (prepared AddressResolved (resolver sys)))
      as (_ & _ & ->).
    rewrite !app_nil_r.
    apply settle_consistent; simpl.
    + rewrite length_delete by done. apply lookup_lt_Some in Hi. lia.
    + intros Hd. rewrite (proj1 Hidle Hd) in Hi. done.
Qed.

Lemma reachable_consistent (sys : System) : reachable sys -> consistent sys.
Proof.
  induction 1 as [|cache st sys sys' sigs _ IH Hreact]; [done|].
  by eapply react_consistent.
Qed.

(** X1: between two stimuli the resolver reports that it is resolving
    exactly while requests are outstanding, which is exactly while the
    counter of callbacks is below the number of requested pairs. *)
Theorem isResolving_iff_outstanding (sys : System) :
  reachable sys ->
  (value_of (isResolving (resolver sys)) = true <-> outstanding sys <> [])
  /\ (value_of (isResolving (resolver sys)) = true <->
        (resolvedAddresses (resolver sys)
           < Z.of_nat (size (requestedAddresses (resolver sys))))%Z).
Proof.
  intros [Hbal Hidle]%reachable_consistent. simpl.
  rewrite negb_true_iff, bool_decide_eq_false. split.
  - by rewrite Hidle.
  - rewrite Hidle. destruct (outstanding sys) as [|r pending]; simpl in *.
    + split; [done|lia].
    + split; [lia|done].
Qed.

(** ** A session ends with its last callback *)

Lemma completion_step cache (i : nat) (sys sys1 : System) (sigs1 : list Signal) :
  consistent sys ->
  react cache (Completion i) sys = Some (sys1, sigs1) ->
  S (length (outstanding sys1)) = length (outstanding sys)
  /\ (length (outstanding sys) = 1 ->
        sigs1 =
          [EventsResolved (applyContact cache <$> events (resolver sys)); Finished]
        /\ events (resolver sys1) = [])
  /\ (1 < length (outstanding sys) ->
        sigs1 = [] /\ events (resolver sys1) = events (resolver sys)).
Proof.
  intros [Hbal Hidle] Hreact.
  destruct (react_completion_inv _ _ _ _ _ Hreact) as [r Hi].
  rewrite (react_completion _ _ _ r) in Hreact by done.
  inversion Hreact as [[Hsys Hsigs]]. clear Hreact. unfold after.
  rewrite emits_of_perform by done.
  rewrite state_of_perform, perform_eq by done. simpl.
  destruct (checkIfResolved_keeps cache (prepared AddressResolved (resolver sys)))
    as (_ & _ & ->).
  rewrite !app_nil_r, length_delete by done.
  pose proof (lookup_lt_Some _ _ _ Hi) as Hlt.
  assert (Hheld : events (resolver sys) <> []).
  { intros Hnone%Hidle. rewrite Hnone in Hi. done. }
  split; [lia|].
  destruct (due (prepared AddressResolved (resolver sys))) eqn:Hdue.
  - apply due_true in Hdue as [_ Hge]. simpl in Hge.
    split; [done|]. intros Hmore. lia.
  - apply due_false in Hdue as [Hnone|Hless]; [done|]. simpl in Hless.
    split; [|done]. intros Hone. lia.
Qed.

Lemma reactAll_cons cache (st : Stimulus)
    (rest : list (@SeasideCache QContact * Stimulus)) (sys : System) :
  reactAll ((cache, st) :: rest) sys =
    match react cache st sys with
    | Some (sys1, sigs1) =>
        match reactAll rest sys1 with
        | Some (sys2, sigs2) => Some (sys2, sigs1 ++ sigs2)
        | None => None
        end
    | None => None
    end.
Proof. done. Qed.

Lemma completions_run (stimuli : list (@SeasideCache QContact * Stimulus))
    (sys sys' : System) (sigs : list Signal) :
  consistent sys ->
  Forall (fun stimulus => isCompletion stimulus = true) stimuli ->
  reactAll stimuli sys = Some (sys', sigs) ->
  length (outstanding sys') + length stimuli = length (outstanding sys)
  /\ (length stimuli < length (outstanding sys) ->
        sigs = [] /\ events (resolver sys') = events (resolver sys))
  /\ (forall cache,
        length stimuli = length (outstanding sys) ->
        last (fst <$> stimuli) = Some cache ->
        sigs =
          [EventsResolved (applyContact cache <$> events (resolver sys)); Finished]
        /\ events (resolver sys') = []).
Proof.
  revert sys sigs.
  induction stimuli as [|[cache st] rest IH]; intros sys sigs Hsys Hall Hrun.
  - inversion Hrun; subst. simpl. split_and!; [lia|done|done].
  - apply Forall_cons in Hall as [Hst Hall].
    destruct st as [op|i]; [done|].
    rewrite reactAll_cons in Hrun.
    destruct (react cache (Completion i) sys) as [[sys1 sigs1]|] eqn:Hstep;
      [|done].
    destruct (reactAll rest sys1) as [[sys2 sigs2]|] eqn:Hrest; [|done].
    inversion Hrun; subst. clear Hrun.
    destruct (completion_step cache i sys sys1 sigs1 Hsys Hstep)
      as (Hlen & Hlast & Hmore).
    pose proof (react_consistent _ _ _ _ _ Hstep Hsys) as Hsys1.
    destruct (IH sys1 sigs2 Hsys1 Hall Hrest) as (Hlen2 & Hearly & Hfinal).
    simpl. split_and!.
    + lia.
    + intros Hfew.
      destruct (Hmore ltac:(lia)) as [-> <-].
      apply Hearly. lia.
    + intros cache' Hall' Hcache.
      destruct rest as [|next rest].
      * simpl in *. inversion Hrest; subst. inversion Hcache; subst.
        destruct (Hlast ltac:(lia)) as [-> ->]. done.
      * destruct (Hmore ltac:(simpl in *; lia)) as [-> <-].
        apply Hfinal; [simpl in *; lia|done].
Qed.

(** X2: a run of completion callbacks, in any order of the outstanding
    requests, delivers nothing and leaves the held events alone as long
    as requests stay outstanding; the callback that answers the last of
    them delivers the held events, in their order and with the contacts
    of the cache at that moment, and empties the resolver. *)
Theorem session_ends_with_last_callback
    (stimuli : list (@SeasideCache QContact * Stimulus))
    (sys sys' : System) (sigs : list Signal) :
  reachable sys ->
  Forall (fun stimulus => isCompletion stimulus = true) stimuli ->
  reactAll stimuli sys = Some (sys', sigs) ->
  length (outstanding sys') + length stimuli = length (outstanding sys)
  /\ (length stimuli < length (outstanding sys) ->
        sigs = [] /\ events (resolver sys') = events (resolver sys))
  /\ (forall cache,
        length stimuli = length (outstanding sys) ->
        last (fst <$> stimuli) = Some cache ->
        sigs =
          [EventsResolved (applyContact cache <$> events (resolver sys)); Finished]
        /\ events (resolver sys') = []).
Proof. intros Hsys%reachable_consistent. by apply completions_run. Qed.

(** ** What a run delivers *)

Lemma delivered_app (o1 o2 : list Action) :
  delivered (o1 ++ o2) = delivered o1 ++ delivered o2.
Proof. apply omap_app. Qed.

Lemma delivered_Call (rs : list Request) : delivered (Call <$> rs) = [].
Proof. unfold delivered. induction rs as [|r rs IH]; simpl; done. Qed.

Lemma withoutContacts_applyContact cache event :
  withoutContacts (applyContact cache event) = withoutContacts event.
Proof. by rewrite applyContact_eq. Qed.

Lemma withoutContacts_applyResolvedContacts cache d :
  withoutContacts <$> applyResolvedContacts cache d = withoutContacts <$> events d.
Proof.
  unfold applyResolvedContacts. rewrite <- list_fmap_compose.
  apply list_fmap_ext. intros i event _. apply withoutContacts_applyContact.
Qed.

(** The output of an operation: the requests of its batch, then the
    signals of its completion check. *)
Lemma output_of_perform cache (op : Operation) d :
  op <> Events ->
  output_of (perform (cache, op) d) =
    (Call <$> (requestFor <$> freshKeys (requestedAddresses d) (batchOf (cache, op))))
    ++ (if due (prepared op d) then
          [Emit (EventsResolved (applyResolvedContacts cache (prepared op d)));
           Emit Finished]
        else []).
Proof.
  intros Hop. rewrite perform_eq by done. simpl.
  rewrite checkIfResolved_due. by destruct (due _).
Qed.

Lemma events_prepared (op : Operation) d cache :
  events (prepared op d) ≡ₚ events d ++ batchOf (cache, op)
  /\ (isPrepend (cache, op) = false ->
      events (prepared op d) = events d ++ batchOf (cache, op)).
Proof.
  destruct op as [l|l| |]; simpl; rewrite ?app_nil_r; split; try done.
  by rewrite Permutation_app_comm, <- Permutation_rev.
Qed.

Lemma perform_held step d :
  withoutContacts
    <$> (concat (delivered (output_of (perform step d)))
         ++ events (state_of (perform step d)))
  = withoutContacts <$> events (prepared (snd step) d).
Proof.
  destruct step as [cache op].
  destruct op as [l|l| |] eqn:Hop; [| | |by destruct d]; rewrite <- Hop;
    assert (Hne : op <> Events) by (by rewrite Hop);
    rewrite output_of_perform, state_of_perform by done;
    simpl; rewrite delivered_app, delivered_Call; simpl;
    destruct (due (prepared op d)); simpl; rewrite ?app_nil_r;
    try done; apply withoutContacts_applyResolvedContacts.
Qed.

(** X3: a run loses and doubles no event: the events it has delivered,
    followed by the events still held, are the events held at its start
    and the events of its batches, contact lists apart; in this order
    when the run prepends nothing, and as a rearrangement in general. *)
Theorem events_conserved steps d :
  let r := performAll steps d in
  withoutContacts
    <$> (concat (delivered (output_of r)) ++ events (state_of r))
  ≡ₚ withoutContacts <$> (events d ++ steps ≫= batchOf)
  /\ (Forall (fun step => isPrepend step = false) steps ->
      withoutContacts
        <$> (concat (delivered (output_of r)) ++ events (state_of r))
      = withoutContacts <$> (events d ++ steps ≫= batchOf)).
Proof.
  simpl. revert d. induction steps as [|step steps IH]; intros d.
  - rewrite performAll_nil. simpl. by rewrite app_nil_r.
  - rewrite performAll_cons, state_of_bind, output_of_bind, delivered_app,
      concat_app.
    destruct (IH (state_of (perform step d))) as [IHperm IHeq].
    pose proof (perform_held step d) as Hstep.
    destruct step as [cache op].
    destruct (events_prepared op d cache) as [Hperm Heq].
    simpl in *. rewrite <- !app_assoc, !fmap_app in *.
    split.
    + rewrite IHperm, !app_assoc. apply Permutation_app_tail.
      rewrite Hstep, <- fmap_app. by apply fmap_Permutation.
    + intros [Hop Hsteps]%Forall_cons.
      rewrite (IHeq Hsteps), !app_assoc. f_equal.
      rewrite Hstep, <- fmap_app. f_equal. by apply Heq.
Qed.

(** X4: in the signals of a run every [eventsResolved] carries a
    non-empty list and is followed at once by [finished], and [finished]
    comes in no other place. *)
Theorem signals_in_pairs steps d :
  let out := output_of (performAll steps d) in
  emits out = delivered out ≫= (fun resolved => [EventsResolved resolved; Finished])
  /\ Forall (fun resolved => resolved <> []) (delivered out).
Proof.
  simpl. revert d. induction steps as [|step steps IH]; intros d.
  - rewrite performAll_nil. done.
  - rewrite performAll_cons, output_of_bind, emits_app, delivered_app, bind_app.
    destruct (IH (state_of (perform step d))) as [-> IHne].
    assert (Hstep :
      emits (output_of (perform step d))
        = delivered (output_of (perform step d))
            ≫= (fun resolved => [EventsResolved resolved; Finished])
      /\ Forall (fun resolved => resolved <> [])
           (delivered (output_of (perform step d)))).
    { destruct step as [cache op].
      destruct op as [l|l| |] eqn:Hop; [| | |done]; rewrite <- Hop;
        assert (Hne : op <> Events) by (by rewrite Hop);
        rewrite output_of_perform by done;
        rewrite emits_app, emits_Call, delivered_app, delivered_Call; simpl;
        destruct (due (prepared op d)) eqn:Hdue; simpl; try done;
        (split; [done|]); apply Forall_singleton;
        apply due_true in Hdue as [Hheld _];
        unfold applyResolvedContacts; by intros ?%fmap_nil_inv. }
    destruct Hstep as [-> Hne]. split; [done|]. by apply Forall_app.
Qed.

(** X5: the two numbers the completion check compares are the number
    of callbacks received and the number of requests made: along a run
    that keeps both within the range of [int], the counter grows by the
    callbacks of the run and the set of requested pairs by the requests of
    the run. *)
Theorem counter_and_set_count steps d :
  (INT_MIN <= resolvedAddresses d)%Z ->
  (resolvedAddresses d
   + Z.of_nat (length (filter (fun step => isCallback step = true) steps))
   <= INT_MAX)%Z ->
  (Z.of_nat (size (requestedAddresses (state_of (performAll steps d))))
   <= INT_MAX)%Z ->
  let r := performAll steps d in
  resolvedAddresses (state_of r)
    = (resolvedAddresses d
       + Z.of_nat (length (filter (fun step => isCallback step = true) steps)))%Z
  /\ (INT_MIN <= resolvedAddresses (state_of r) <= INT_MAX)%Z
  /\ size (requestedAddresses (state_of r))
     = size (requestedAddresses d) + length (calls (output_of r)).
Proof.
  assert (Hcount : forall d',
    resolvedAddresses (state_of (performAll steps d'))
    = (resolvedAddresses d'
       + Z.of_nat (length (filter (fun step => isCallback step = true) steps)))%Z).
  { induction steps as [|step steps' IH]; intros d'.
    - rewrite performAll_nil. simpl. lia.
    - rewrite performAll_cons, state_of_bind, IH, perform_resolved, filter_cons.
      destruct step as [cache [l|l| |]]; simpl; lia. }
  intros Hmin Hmax _ r. subst r. split_and!.
  - apply Hcount.
  - rewrite Hcount. lia.
  - rewrite Hcount. lia.
  - destruct (performAll_requests steps d) as [Hset Hcalls].
    rewrite Hset, Hcalls, size_freshKeys, length_fmap. lia.
Qed.

(** X6: within one operation the requests come before the signals;
    a callback makes no request, and a snapshot has no output. *)
Theorem requests_before_signals step d :
  let out := output_of (perform step d) in
  out = (Call <$> calls out) ++ (Emit <$> emits out)
  /\ (isCallback step = true -> calls out = [])
  /\ (snd step = Events -> out = []).
Proof.
  simpl. destruct step as [cache op].
  destruct op as [l|l| |] eqn:Hop; [| | |done]; rewrite <- Hop;
    assert (Hne : op <> Events) by (by rewrite Hop);
    rewrite output_of_perform by done;
    rewrite calls_app, emits_app, calls_Call, emits_Call; simpl;
    destruct (due (prepared op d)); simpl; rewrite ?app_nil_r;
    (split_and!; [done| |by rewrite Hop]); rewrite Hop; simpl; done.
Qed.

(** ** Batches *)

Lemma perform_quiet cache (op : Operation) d :
  op <> Events ->
  emits (output_of (perform (cache, op) d)) = [] ->
  perform (cache, op) d =
    (tt, prepared op d,
     Call <$> (requestFor <$> freshKeys (requestedAddresses d) (batchOf (cache, op)))).
Proof.
  intros Hop Hquiet. rewrite emits_of_perform in Hquiet by done.
  rewrite perform_eq, checkIfResolved_due by done.
  destruct (due (prepared op d)); [done|]. simpl. by rewrite app_nil_r.
Qed.

Lemma requested_app X l1 l2 :
  list_to_set (freshKeys (list_to_set (freshKeys X l1) ∪ X) l2)
    ∪ (list_to_set (freshKeys X l1) ∪ X)
  = list_to_set (freshKeys X (l1 ++ l2)) ∪ X.
Proof.
  rewrite freshKeys_app, list_to_set_app_L.
  apply set_eq. intros uidPair. rewrite !elem_of_union. tauto.
Qed.

Lemma prepared_append l1 l2 d :
  prepared (AppendEvents l2) (prepared (AppendEvents l1) d)
  = prepared (AppendEvents (l1 ++ l2)) d.
Proof.
  unfold prepared. simpl. f_equal.
  - by rewrite app_assoc.
  - apply requested_app.
Qed.

Lemma prepared_prepend l1 l2 d :
  prepared (PrependEvents l2) (prepared (PrependEvents l1) d)
  = prepared (PrependEvents (l1 ++ l2)) d.
Proof.
  unfold prepared. simpl. f_equal.
  - by rewrite rev_app_distr, app_assoc.
  - apply requested_app.
Qed.

Lemma two_batches cache1 cache2 (op1 op2 op : Operation) d :
  op1 <> Events -> op2 <> Events -> op <> Events ->
  prepared op2 (prepared op1 d) = prepared op d ->
  batchOf (cache2, op) = batchOf (cache1, op1) ++ batchOf (cache2, op2) ->
  requestedAddresses (prepared op1 d)
  = list_to_set (freshKeys (requestedAddresses d) (batchOf (cache1, op1)))
    ∪ requestedAddresses d ->
  emits (output_of (perform (cache1, op1) d)) = [] ->
  bind (perform (cache1, op1)) (fun _ => perform (cache2, op2)) d
  = perform (cache2, op) d.
Proof.
  intros Hop1 Hop2 Hop Hprepared Hbatch Hrequested Hquiet.
  unfold bind. rewrite (perform_quiet _ _ _ Hop1 Hquiet).
  rewrite !perform_eq by done.
  rewrite Hprepared, Hbatch, freshKeys_app, !fmap_app, Hrequested.
  by rewrite <- app_assoc.
Qed.

(** X7: two batches added one after the other, the first without a
    delivery, are as their concatenation added at once: the same state,
    the same requests and signals in the same order.  This holds of two
    appended and of two prepended batches. *)
Theorem batches_compose cache1 cache2 l1 l2 d :
  (emits (output_of (appendEvents cache1 l1 d)) = [] ->
   bind (appendEvents cache1 l1) (fun _ => appendEvents cache2 l2) d
   = appendEvents cache2 (l1 ++ l2) d)
  /\ (emits (output_of (prependEvents cache1 l1 d)) = [] ->
      bind (prependEvents cache1 l1) (fun _ => prependEvents cache2 l2) d
      = prependEvents cache2 (l1 ++ l2) d).
Proof.
  split; intros Hquiet.
  - apply (two_batches cache1 cache2 (AppendEvents l1) (AppendEvents l2)
             (AppendEvents (l1 ++ l2))); try done.
    apply prepared_append.
  - apply (two_batches cache1 cache2 (PrependEvents l1) (PrependEvents l2)
             (PrependEvents (l1 ++ l2))); try done.
    apply prepared_prepend.
Qed.

Lemma due_append_prepend l d :
  due (prepared (AppendEvents l) d) = due (prepared (PrependEvents l) d).
Proof.
  unfold due. simpl. f_equal. f_equal.
  apply bool_decide_ext.
  split.
  - intros [-> ->]%app_eq_nil. done.
  - intros [Hl ->]%app_eq_nil. destruct l as [|event l]; [done|].
    simpl in Hl. by apply app_eq_nil in Hl as [_ ?].
Qed.

(** X8: appending a batch and prepending it differ in the order of the
    events only: the requests, the set of requested pairs and the counter
    are the same, one delivers exactly when the other does, and the
    events held and the events delivered are the same up to their
    order. *)
Theorem append_and_prepend_differ_in_order cache l d :
  let a := appendEvents cache l d in
  let p := prependEvents cache l d in
  calls (output_of a) = calls (output_of p)
  /\ requestedAddresses (state_of a) = requestedAddresses (state_of p)
  /\ resolvedAddresses (state_of a) = resolvedAddresses (state_of p)
  /\ (emits (output_of a) = [] <-> emits (output_of p) = [])
  /\ events (state_of a) ≡ₚ events (state_of p)
  /\ concat (delivered (output_of a)) ≡ₚ concat (delivered (output_of p)).
Proof.
  intros a p. subst a p.
  change (appendEvents cache l d) with (perform (cache, AppendEvents l) d).
  change (prependEvents cache l d) with (perform (cache, PrependEvents l) d).
  assert (Hperm : events d ++ l ≡ₚ rev l ++ events d)
    by (by rewrite Permutation_app_comm, <- Permutation_rev).
  rewrite !emits_of_perform, !state_of_perform, !output_of_perform by done.
  rewrite !calls_app, !calls_Call, !delivered_app, !delivered_Call.
  rewrite due_append_prepend. simpl.
  destruct (due (prepared (PrependEvents l) d)); simpl; split_and!; try done.
  unfold applyResolvedContacts. simpl. rewrite !app_nil_r.
  by apply fmap_Permutation.
Qed.

Lemma freshKeys_skipped X l :
  Forall (fun event => skipped event = true) l -> freshKeys X l = [].
Proof.
  induction 1 as [|event l Hskip _ IH]; simpl; [done|]. by rewrite Hskip.
Qed.

(** X9: a batch of events that each lack an address makes no request
    and leaves the set of requested pairs alone, appended or prepended;
    when no request is outstanding, appending it delivers it at once,
    with the events held before it. *)
Theorem batch_without_addresses cache l d :
  Forall (fun event => skipped event = true) l ->
  calls (output_of (appendEvents cache l d)) = []
  /\ calls (output_of (prependEvents cache l d)) = []
  /\ requestedAddresses (state_of (appendEvents cache l d)) = requestedAddresses d
  /\ requestedAddresses (state_of (prependEvents cache l d)) = requestedAddresses d
  /\ (events d ++ l <> [] ->
      (Z.of_nat (size (requestedAddresses d)) <= resolvedAddresses d)%Z ->
      output_of (appendEvents cache l d)
        = [Emit (EventsResolved (applyContact cache <$> (events d ++ l)));
           Emit Finished]
      /\ events (state_of (appendEvents cache l d)) = []).
Proof.
  intros Hskip.
  change (appendEvents cache l d) with (perform (cache, AppendEvents l) d).
  change (prependEvents cache l d) with (perform (cache, PrependEvents l) d).
  destruct (perform_requests (cache, AppendEvents l) d) as [Hra Hca].
  destruct (perform_requests (cache, PrependEvents l) d) as [Hrp Hcp].
  change (batchOf (cache, AppendEvents l)) with l in Hra, Hca.
  change (batchOf (cache, PrependEvents l)) with l in Hrp, Hcp.
  rewrite (freshKeys_skipped _ _ Hskip) in Hra, Hca, Hrp, Hcp.
  simpl in Hra, Hrp. rewrite (left_id_L ∅ (∪)) in Hra, Hrp.
  split_and!; try done.
  intros Hheld Hge.
  assert (Hprepared : prepared (AppendEvents l) d = set_events (events d ++ l) d).
  { unfold prepared, set_events. rewrite (freshKeys_skipped _ _ Hskip). simpl.
    by rewrite (left_id_L ∅ (∪)). }
  assert (Hdue : due (prepared (AppendEvents l) d) = true).
  { rewrite Hprepared. by apply due_true. }
  rewrite output_of_perform, state_of_perform, Hdue by done.
  change (batchOf (cache, AppendEvents l)) with l.
  rewrite (freshKeys_skipped _ _ Hskip), Hprepared. done.
Qed.

(** ** Requests and lookups *)

(** X10: for an event with two non-empty addresses the request and the
    later lookup are of one kind, by phone number when the local address
    denotes phone comparison and by online account otherwise; the lookup
    takes the raw addresses, the request the folded ones.  An event with a
    local address that does not denote phone comparison and an empty
    remote address is looked up by email address although no request is
    made for it. *)
Theorem request_and_lookup_of_event cache d event :
  (forall s, toCaseFolded s = EmptyString -> s = EmptyString) ->
  (skipped event = false ->
   localUidComparesPhoneNumbers (localUid event) = true ->
   requestFor (foldedEventAddressOf event)
   = ResolvePhoneNumber
       (toCaseFolded
          (if isEmpty (minimizePhoneNumber (remoteUid event)) then remoteUid event
           else minimizePhoneNumber (remoteUid event))) true
   /\ lookupItem cache event = itemByPhoneNumber cache (remoteUid event) true)
  /\ (skipped event = false ->
      localUidComparesPhoneNumbers (localUid event) = false ->
      requestFor (foldedEventAddressOf event)
      = ResolveOnlineAccount (toCaseFolded (localUid event))
          (toCaseFolded (remoteUid event)) true
      /\ lookupItem cache event
         = itemByOnlineAccount cache (localUid event) (remoteUid event) true)
  /\ (localUidComparesPhoneNumbers (localUid event) = false ->
      remoteUid event = EmptyString ->
      lookupItem cache event = itemByEmailAddress cache (localUid event) true
      /\ resolveEvent event d = (tt, d, [])).
Proof.
  intros Hfold. unfold lookupItem, foldedEventAddressOf, foldedEventAddress.
  split_and!.
  - intros _ ->. done.
  - intros [Hlocal Hremote]%orb_false_elim ->.
    apply isEmpty_false in Hlocal, Hremote.
    rewrite requestFor_cases. simpl.
    assert (isEmpty (toCaseFolded (localUid event)) = false) as ->
      by (apply isEmpty_false; by intros ?%Hfold).
    assert (isEmpty (toCaseFolded (remoteUid event)) = false) as ->
      by (apply isEmpty_false; by intros ?%Hfold).
    assert (isEmpty (remoteUid event) = false) as ->
      by (by apply isEmpty_false).
    done.
  - intros -> Hremote. rewrite resolveEvent_eq. unfold skipped.
    rewrite Hremote. simpl. by rewrite orb_true_r.
Qed.

(** X11: two events of accounts that compare phone numbers, of the same
    account or not, whose remote addresses minimize to the same non-empty
    number fold to the same pair, so that a batch of the two makes at most
    one request, the request for that number. *)
Theorem phone_events_share_request cache d (e1 e2 : Event) :
  skipped e1 = false -> skipped e2 = false ->
  localUidComparesPhoneNumbers (localUid e1) = true ->
  localUidComparesPhoneNumbers (localUid e2) = true ->
  minimizePhoneNumber (remoteUid e1) = minimizePhoneNumber (remoteUid e2) ->
  minimizePhoneNumber (remoteUid e1) <> EmptyString ->
  foldedEventAddressOf e1 = foldedEventAddressOf e2
  /\ foldedEventAddressOf e1
     = (EmptyString, toCaseFolded (minimizePhoneNumber (remoteUid e1)))
  /\ calls (output_of (appendEvents cache [e1; e2] d))
     = if decide (foldedEventAddressOf e1 ∈ requestedAddresses d) then []
       else [ResolvePhoneNumber
               (toCaseFolded (minimizePhoneNumber (remoteUid e1))) true].
Proof.
  intros Hs1 Hs2 Hp1 Hp2 Hmin Hne.
  assert (Hk1 : foldedEventAddressOf e1
                = (EmptyString, toCaseFolded (minimizePhoneNumber (remoteUid e1)))).
  { unfold foldedEventAddressOf, foldedEventAddress.
    rewrite Hp1, foldedAddress_phone.
    apply isEmpty_false in Hne. by rewrite Hne. }
  assert (Hk2 : foldedEventAddressOf e2 = foldedEventAddressOf e1).
  { rewrite Hk1. unfold foldedEventAddressOf, foldedEventAddress.
    rewrite Hp2, foldedAddress_phone, <- Hmin.
    apply isEmpty_false in Hne. by rewrite Hne. }
  split_and!; [done|done|].
  change (appendEvents cache [e1; e2] d)
    with (perform (cache, AppendEvents [e1; e2]) d).
  destruct (perform_requests (cache, AppendEvents [e1; e2]) d) as [_ ->].
  simpl. rewrite Hs1, Hs2, Hk2.
  destruct (decide (foldedEventAddressOf e1 ∈ requestedAddresses d)) as [Hin|Hin].
  - done.
  - rewrite decide_True by (apply elem_of_union; left; by apply elem_of_singleton).
    simpl. by rewrite Hk1.
Qed.

(** X12: the contact-application pass does not read the contact lists
    the events come with, and running it on its own result changes
    nothing. *)
Theorem applyResolvedContacts_idempotent cache d :
  applyResolvedContacts cache (set_events (applyResolvedContacts cache d) d)
  = applyResolvedContacts cache d
  /\ (forall event (cs : list Contact),
        applyContact cache (setContacts cs event) = applyContact cache event)
  /\ (forall d',
        withoutContacts <$> events d' = withoutContacts <$> events d ->
        applyResolvedContacts cache d' = applyResolvedContacts cache d).
Proof.
  assert (Hset : forall event (cs : list Contact),
            applyContact cache (setContacts cs event) = applyContact cache event).
  { intros event cs. by rewrite !applyContact_eq. }
  assert (Hwithout : forall event,
            applyContact cache (withoutContacts event) = applyContact cache event).
  { intros event. apply Hset. }
  split_and!; [|done|].
  - unfold applyResolvedContacts. simpl. rewrite <- list_fmap_compose.
    apply list_fmap_ext. intros i event _. simpl.
    rewrite (applyContact_eq cache event), Hset. apply applyContact_eq.
  - intros d'. unfold applyResolvedContacts.
    generalize (events d) as held. induction (events d') as [|event l IH];
      intros [|event' held] Hsame; try done.
    simpl in Hsame. inversion Hsame as [[Hid Hlocal Hremote Hrest]].
    simpl. f_equal; [|by apply IH].
    rewrite <- (Hwithout event), <- (Hwithout event').
    unfold withoutContacts, setContacts. by rewrite Hid, Hlocal, Hremote.
Qed.

(** ** Delivery within the call that adds a batch *)

Lemma freshKeys_nil_iff X l :
  freshKeys X l = [] <-> forall uidPair : UidPair, uidPair ∈ keysOf l -> uidPair ∈ X.
Proof.
  split.
  - intros Hnil uidPair Hin.
    destruct (decide (uidPair ∈ X)) as [HX|HX]; [done|].
    assert (Hfresh : uidPair ∈ freshKeys X l) by (by apply elem_of_freshKeys).
    rewrite Hnil in Hfresh. by apply elem_of_nil in Hfresh.
  - intros Hall. destruct (freshKeys X l) as [|uidPair ks] eqn:Hfresh; [done|].
    assert (Hin : uidPair ∈ freshKeys X l) by (rewrite Hfresh; left).
    apply elem_of_freshKeys in Hin as [Hin HX]. by apply Hall in Hin.
Qed.

Lemma add_delivers_iff cache (op : Operation) l (sys : System) :
  consistent sys ->
  op = AppendEvents l \/ op = PrependEvents l ->
  due (prepared op (resolver sys)) = true <->
    outstanding sys = [] /\ l <> []
    /\ forall uidPair : UidPair,
         uidPair ∈ keysOf l -> uidPair ∈ requestedAddresses (resolver sys).
Proof.
  intros [Hbal Hidle] Hop. rewrite due_true, <- freshKeys_nil_iff.
  assert (Hsize : size (requestedAddresses (prepared op (resolver sys)))
                  = length (freshKeys (requestedAddresses (resolver sys)) l)
                    + size (requestedAddresses (resolver sys)))
    by (destruct Hop as [-> | ->]; simpl; apply size_freshKeys).
  assert (Hres : resolvedAddresses (prepared op (resolver sys))
                 = resolvedAddresses (resolver sys))
    by (by destruct Hop as [-> | ->]).
  assert (Hheld : events (prepared op (resolver sys)) = [] <->
                  events (resolver sys) = [] /\ l = []).
  { destruct Hop as [-> | ->]; simpl.
    - split; [by intros [-> ->]%app_eq_nil|by intros [-> ->]].
    - split; [|by intros [-> ->]].
      intros [Hl ->]%app_eq_nil. split; [done|].
      destruct l as [|event l]; [done|]. simpl in Hl.
      by apply app_eq_nil in Hl as [_ ?]. }
  rewrite Hsize, Hres, Hheld. split.
  - intros [Hsome Hge].
    assert (Hnone : outstanding sys = []) by (apply length_zero_iff_nil; lia).
    split_and!; [done| |apply length_zero_iff_nil; lia].
    intros ->. apply Hsome. by rewrite Hidle.
  - intros (Hnone & Hl & Hfresh). rewrite Hfresh, Hnone in *. simpl in *.
    split; [by intros [_ ?]|lia].
Qed.

(** X13: an operation that adds a batch delivers before it returns
    exactly when no request is outstanding, the batch is not empty and
    each of its events either lacks an address or folds to a pair that was
    requested before; it then delivers the batch, reversed when it was
    prepended, and makes no request. *)
Theorem batch_delivered_within_call cache l (sys sys' : System)
    (sigs : list Signal) (op : Operation) :
  reachable sys ->
  op = AppendEvents l \/ op = PrependEvents l ->
  react cache (Client op) sys = Some (sys', sigs) ->
  (sigs <> [] <->
     outstanding sys = [] /\ l <> []
     /\ forall uidPair : UidPair,
          uidPair ∈ keysOf l -> uidPair ∈ requestedAddresses (resolver sys))
  /\ (sigs <> [] ->
      sigs = [EventsResolved
                (applyContact cache
                   <$> (match op with PrependEvents _ => rev l | _ => l end));
              Finished]
      /\ outstanding sys' = []
      /\ events (resolver sys') = []).
Proof.
  intros Hsys%reachable_consistent Hop Hreact.
  assert (Hne : op <> Events /\ op <> AddressResolved)
    by (by destruct Hop as [-> | ->]).
  destruct Hne as [Hne Hcb].
  rewrite react_client in Hreact by done.
  inversion Hreact as [[Hsys' Hsigs]]. clear Hreact. unfold after.
  rewrite emits_of_perform, state_of_perform by done.
  rewrite perform_eq by done. simpl. rewrite calls_app, calls_Call.
  destruct (checkIfResolved_keeps cache (prepared op (resolver sys)))
    as (_ & _ & ->).
  rewrite app_nil_r.
  pose proof (add_delivers_iff cache op l sys Hsys Hop) as Hdue.
  destruct (due (prepared op (resolver sys))) eqn:Hd.
  - destruct (proj1 Hdue eq_refl) as (Hnone & Hl & Hall).
    split; [split; [by intros _|done]|]. intros _.
    apply freshKeys_nil_iff in Hall.
    assert (Hidle : events (resolver sys) = []) by (by apply Hsys).
    destruct Hop as [-> | ->]; simpl; unfold applyResolvedContacts, batchOf;
      simpl; rewrite Hall, Hnone, Hidle, ?app_nil_r; done.
  - split; [|done]. split; [done|]. intros Hyes%Hdue. done.
Qed.

End Properties.

(** * The theorems at work, and where the specification differs *)

Lemma toCaseFolded_sample_nonempty (s : string) :
  Sample.toCaseFolded s = EmptyString -> s = EmptyString.
Proof. by destruct s. Qed.

(** C8 at the telephony account and the number of the scenario. *)
Lemma foldedEventAddress_key_witness :
  Sample.localUidComparesPhoneNumbers Sample.ringAccount = true
  /\ Sample.toCaseFolded (Sample.minimizePhoneNumber "+1-555-0100")
     = Sample.minimizePhoneNumber "+1-555-0100"
  /\ foldedEventAddress Sample.toCaseFolded Sample.minimizePhoneNumber
       Sample.localUidComparesPhoneNumbers Sample.ringAccount "+1-555-0100"
     = (EmptyString, "5550100").
Proof.
  split_and!; [reflexivity..|].
  exact (proj1 (proj2 (foldedEventAddress_key Sample.toCaseFolded
                  Sample.minimizePhoneNumber Sample.localUidComparesPhoneNumbers
                  Sample.ringAccount "+1-555-0100")) eq_refl eq_refl).
Defined.

(** C2: after [A, B] has been appended, prepending [C, D] gives
    [D, C, A, B], which is not [C, D, A, B].  And a first batch that needs
    no request is delivered at once, so that a second batch is held
    alone. *)
Lemma prependEvents_reverses_batch :
  emits (output_of (Sample.appendEvents Sample.cache
                      [Sample.eventA; Sample.eventB] initial)) = []
  /\ events (state_of
       (Sample.prependEvents Sample.cache [Sample.eventC; Sample.eventD]
          (state_of (Sample.appendEvents Sample.cache
                       [Sample.eventA; Sample.eventB] initial))))
     = [Sample.eventD; Sample.eventC; Sample.eventA; Sample.eventB]
  /\ events (state_of
       (Sample.prependEvents Sample.cache [Sample.eventC; Sample.eventD]
          (state_of (Sample.appendEvents Sample.cache
                       [Sample.eventA; Sample.eventB] initial))))
     <> [Sample.eventC; Sample.eventD; Sample.eventA; Sample.eventB]
  /\ emits (output_of (Sample.appendEvents Sample.emptyCache
                         [Sample.phoneForm] initial))
     = [EventsResolved [Sample.phoneForm]; Finished]
  /\ events (state_of
       (Sample.appendEvents Sample.emptyCache [Sample.eventC; Sample.eventD]
          (state_of (Sample.appendEvents Sample.emptyCache
                       [Sample.phoneForm] initial))))
     = [Sample.eventC; Sample.eventD].
Proof.
  split_and!;
    [vm_compute; reflexivity..|vm_compute; discriminate
    |vm_compute; reflexivity|vm_compute; reflexivity].
Qed.

(** C2 on the same events. *)
Lemma events_order_of_two_batches_witness :
  emits (output_of (Sample.appendEvents Sample.cache
                      [Sample.eventA; Sample.eventB] initial)) = []
  /\ events (state_of
       (Sample.appendEvents Sample.cache [Sample.eventC; Sample.eventD]
          (state_of (Sample.appendEvents Sample.cache
                       [Sample.eventA; Sample.eventB] initial))))
     = [Sample.eventA; Sample.eventB; Sample.eventC; Sample.eventD]
  /\ events (state_of
       (Sample.prependEvents Sample.cache [Sample.eventC; Sample.eventD]
          (state_of (Sample.appendEvents Sample.cache
                       [Sample.eventA; Sample.eventB] initial))))
     = [Sample.eventD; Sample.eventC; Sample.eventA; Sample.eventB].
Proof.
  assert (Hquiet : emits (output_of (Sample.appendEvents Sample.cache
                      [Sample.eventA; Sample.eventB] initial)) = [])
    by (vm_compute; reflexivity).
  split; [exact Hquiet|].
  destruct (events_order_of_two_batches Sample.toCaseFolded
              Sample.minimizePhoneNumber Sample.localUidComparesPhoneNumbers
              Sample.cache Sample.cache initial
              [Sample.eventA; Sample.eventB] [Sample.eventC; Sample.eventD]
              Hquiet) as (_ & [[_ Happ]|Happ] & [[_ Hpre]|Hpre]).
  - split; [exact Happ|exact Hpre].
  - vm_compute in Hpre. discriminate Hpre.
  - vm_compute in Happ. discriminate Happ.
  - vm_compute in Happ. discriminate Happ.
Defined.

(** C3: the scenario of the specification on a new resolver gives one
    request, for the account, and none for the phone form. *)
Lemma appendEvents_scenario_one_request :
  calls (output_of (Sample.appendEvents Sample.cache
                      [Sample.phoneForm; Sample.accountForm] initial))
    = [ResolveOnlineAccount "acct1" "acct1-contact" true]
  /\ length (calls (output_of (Sample.appendEvents Sample.cache
                      [Sample.phoneForm; Sample.accountForm] initial))) <> 2
  /\ output_of (resolveEvent Sample.toCaseFolded Sample.minimizePhoneNumber
                  Sample.localUidComparesPhoneNumbers Sample.phoneForm initial)
     = [].
Proof. split_and!; [vm_compute; reflexivity|vm_compute; discriminate|reflexivity]. Qed.

(** C3 on the same events, and the phone number of the scenario seen from
    a telephony account. *)
Lemma appendEvents_phone_and_account_form_witness :
  calls (output_of (Sample.appendEvents Sample.cache
                      [Sample.phoneForm; Sample.accountForm] initial))
    = [ResolveOnlineAccount "acct1" "acct1-contact" true]
  /\ output_of (resolveEvent Sample.toCaseFolded Sample.minimizePhoneNumber
                  Sample.localUidComparesPhoneNumbers Sample.ringForm initial)
     = [Call (ResolvePhoneNumber "5550100" true)].
Proof.
  destruct (appendEvents_phone_and_account_form Sample.toCaseFolded
              Sample.minimizePhoneNumber Sample.localUidComparesPhoneNumbers
              Sample.cache initial 1 2 [] []) as (Hcalls & _ & Hvariant & _).
  - reflexivity.
  - reflexivity.
  - discriminate.
  - discriminate.
  - apply not_elem_of_empty.
  - split; [exact Hcalls|].
    apply (Hvariant Sample.ringForm); [reflexivity|apply not_elem_of_empty].
Defined.


(** C10 on the run of the two sessions above. *)
Lemma resolveEmailAddress_never_called_witness :
  (forall s, Sample.toCaseFolded s = EmptyString -> s = EmptyString)
  /\ (forall address requireComplete,
        ResolveEmailAddress address requireComplete
          ∉ calls (output_of
                     (Sample.performAll
                        [(Sample.cache, AppendEvents [Sample.accountForm]);
                         (Sample.cache, AddressResolved);
                         (Sample.cache, AppendEvents [Sample.ringForm])]
                        initial))).
Proof.
  split; [exact toCaseFolded_sample_nonempty|].
  exact (proj2 (proj2 (resolveEmailAddress_never_called Sample.toCaseFolded
                  Sample.minimizePhoneNumber Sample.localUidComparesPhoneNumbers
                  toCaseFolded_sample_nonempty
                  [(Sample.cache, AppendEvents [Sample.accountForm]);
                   (Sample.cache, AddressResolved);
                   (Sample.cache, AppendEvents [Sample.ringForm])]
                  initial))).
Defined.

(** The bound of the counter rests on the protocol: a callback that
    answers no request takes the counter of a new resolver above the
    number of its requests. *)
Remark unsolicited_callback_exceeds :
  resolvedAddresses (state_of (Sample.addressResolved Sample.cache initial)) = 1%Z
  /\ size (requestedAddresses
             (state_of (Sample.addressResolved Sample.cache initial))) = 0.
Proof. split; reflexivity. Qed.

Lemma reachable_sys2 : Sample.reachable Sample.sys2.
Proof.
  apply (reachable_react _ _ _ Sample.cache (Completion 0) Sample.sys1 Sample.sys2
           (snd (after Sample.sys1 (delete 0 (outstanding Sample.sys1))
                   (Sample.addressResolved Sample.cache (resolver Sample.sys1))))).
  - apply (reachable_react _ _ _ Sample.cache
             (Client (AppendEvents [Sample.accountForm])) boot Sample.sys1
             (snd (after boot (outstanding boot)
                     (perform Sample.toCaseFolded Sample.minimizePhoneNumber
                        Sample.localUidComparesPhoneNumbers
                        (Sample.cache, AppendEvents [Sample.accountForm])
                        (resolver boot))))).
    + apply reachable_boot.
    + reflexivity.
  - vm_compute. reflexivity.
Qed.

(** C6 after one request and its callback. *)
Lemma resolvedAddresses_le_requested_witness :
  Sample.reachable Sample.sys2
  /\ (resolvedAddresses (resolver Sample.sys2)
        <= Z.of_nat (size (requestedAddresses (resolver Sample.sys2))))%Z.
Proof.
  split; [exact reachable_sys2|].
  exact (resolvedAddresses_le_requested Sample.toCaseFolded
           Sample.minimizePhoneNumber Sample.localUidComparesPhoneNumbers
           Sample.sys2 reachable_sys2).
Defined.

(** * The further properties at work *)

Lemma reachable_sys1 : Sample.reachable Sample.sys1.
Proof.
  apply (reachable_react _ _ _ Sample.cache
           (Client (AppendEvents [Sample.accountForm])) boot Sample.sys1
           (snd (after boot (outstanding boot)
                   (perform Sample.toCaseFolded Sample.minimizePhoneNumber
                      Sample.localUidComparesPhoneNumbers
                      (Sample.cache, AppendEvents [Sample.accountForm])
                      (resolver boot))))).
  - apply reachable_boot.
  - reflexivity.
Qed.

(** X1 while the request of the account event is outstanding. *)
Lemma isResolving_iff_outstanding_witness :
  Sample.reachable Sample.sys1
  /\ outstanding Sample.sys1 = [ResolveOnlineAccount "acct1" "acct1-contact" true]
  /\ value_of (isResolving (resolver Sample.sys1)) = true.
Proof.
  split_and!; [exact reachable_sys1|vm_compute; reflexivity|].
  apply (proj1 (isResolving_iff_outstanding Sample.toCaseFolded
                  Sample.minimizePhoneNumber Sample.localUidComparesPhoneNumbers
                  Sample.sys1 reachable_sys1)).
  vm_compute. discriminate.
Defined.

(** X2 at the one callback of that session. *)
Lemma session_ends_with_last_callback_witness :
  Sample.reactAll [(Sample.cache, Completion 0)] Sample.sys1
    = Some (Sample.sys2,
            [EventsResolved [mkEvent 2 "acct1" "acct1-contact" [(9%Z, "Bob")]];
             Finished])
  /\ events (resolver Sample.sys2) = [].
Proof.
  assert (Hrun : Sample.reactAll [(Sample.cache, Completion 0)] Sample.sys1
                 = Some (Sample.sys2,
                         [EventsResolved
                            [mkEvent 2 "acct1" "acct1-contact" [(9%Z, "Bob")]];
                          Finished]))
    by (vm_compute; reflexivity).
  split; [exact Hrun|].
  refine (proj2 (proj2 (proj2 (session_ends_with_last_callback Sample.toCaseFolded
            Sample.minimizePhoneNumber Sample.localUidComparesPhoneNumbers
            [(Sample.cache, Completion 0)] Sample.sys1 Sample.sys2 _
            reachable_sys1 _ Hrun)) Sample.cache _ _)).
  - repeat constructor.
  - vm_compute. reflexivity.
  - reflexivity.
Defined.

(** X9 at the phone form of the scenario, whose local address is empty. *)
Lemma batch_without_addresses_witness :
  Forall (fun event => skipped event = true) [Sample.phoneForm]
  /\ output_of (Sample.appendEvents Sample.emptyCache [Sample.phoneForm] initial)
     = [Emit (EventsResolved [Sample.phoneForm]); Emit Finished].
Proof.
  assert (Hskip : Forall (fun event => skipped event = true) [Sample.phoneForm])
    by (repeat constructor).
  split; [exact Hskip|].
  refine (proj1 (proj2 (proj2 (proj2 (proj2
            (batch_without_addresses Sample.toCaseFolded Sample.minimizePhoneNumber
               Sample.localUidComparesPhoneNumbers Sample.emptyCache
               [Sample.phoneForm] initial Hskip)))) _ _)).
  - discriminate.
  - vm_compute. discriminate.
Defined.

(** X10 at the phone number seen from a telephony account. *)
Lemma request_and_lookup_of_event_witness :
  requestFor (foldedEventAddressOf Sample.toCaseFolded Sample.minimizePhoneNumber
                Sample.localUidComparesPhoneNumbers Sample.ringForm)
    = ResolvePhoneNumber "5550100" true
  /\ lookupItem Sample.localUidComparesPhoneNumbers Sample.cache Sample.ringForm
     = Some (mkCacheItem 7 "Alice").
Proof.
  exact (proj1 (request_and_lookup_of_event Sample.toCaseFolded
                  Sample.minimizePhoneNumber Sample.localUidComparesPhoneNumbers
                  Sample.cache initial Sample.ringForm
                  toCaseFolded_sample_nonempty) eq_refl eq_refl).
Defined.

(** X11 at one number written in two ways, on two telephony accounts. *)
Lemma phone_events_share_request_witness :
  calls (output_of (Sample.appendEvents Sample.cache
                      [Sample.ringForm; Sample.ringForm2] initial))
    = [ResolvePhoneNumber "5550100" true].
Proof.
  refine (eq_trans (proj2 (proj2
            (phone_events_share_request Sample.toCaseFolded
               Sample.minimizePhoneNumber Sample.localUidComparesPhoneNumbers
               Sample.cache initial Sample.ringForm Sample.ringForm2
               eq_refl eq_refl eq_refl eq_refl eq_refl _))) _).
  - discriminate.
  - reflexivity.
Defined.

Lemma react_sys3 :
  Sample.react Sample.cache (Client (AppendEvents [Sample.accountForm])) Sample.sys2
    = Some (Sample.sys3,
            [EventsResolved [mkEvent 2 "acct1" "acct1-contact" [(9%Z, "Bob")]];
             Finished]).
Proof. vm_compute. reflexivity. Qed.

(** X13 at the second session of the account event: its pair was
    requested in the first. *)
Lemma batch_delivered_within_call_witness :
  Sample.reachable Sample.sys2
  /\ Sample.react Sample.cache (Client (AppendEvents [Sample.accountForm]))
       Sample.sys2
     = Some (Sample.sys3,
             [EventsResolved [mkEvent 2 "acct1" "acct1-contact" [(9%Z, "Bob")]];
              Finished])
  /\ outstanding Sample.sys3 = []
  /\ events (resolver Sample.sys3) = [].
Proof.
  split_and!; [exact reachable_sys2|exact react_sys3|..].
  - refine (proj1 (proj2 (proj2
              (batch_delivered_within_call Sample.toCaseFolded
                 Sample.minimizePhoneNumber Sample.localUidComparesPhoneNumbers
                 Sample.cache [Sample.accountForm] Sample.sys2 Sample.sys3 _
                 (AppendEvents [Sample.accountForm]) reachable_sys2
                 (or_introl eq_refl) react_sys3) _))).
    discriminate.
  - refine (proj2 (proj2 (proj2
              (batch_delivered_within_call Sample.toCaseFolded
                 Sample.minimizePhoneNumber Sample.localUidComparesPhoneNumbers
                 Sample.cache [Sample.accountForm] Sample.sys2 Sample.sys3 _
                 (AppendEvents [Sample.accountForm]) reachable_sys2
                 (or_introl eq_refl) react_sys3) _))).
    discriminate.
Defined.

(** C4: in the second session of the account event on the emptied
    resolver one event with two non-empty addresses folds to one pair, and
    the session sends no request: the requests of that session do not
    correspond one for one to its folded pairs. *)
Lemma later_session_key_without_request :
  emits (output_of Sample.finished1)
    = [EventsResolved
         [mkEvent 2 "acct1" "acct1-contact" [(9%Z, "Bob")]]; Finished]
  /\ events (state_of Sample.finished1) = []
  /\ requestKeys Sample.toCaseFolded Sample.minimizePhoneNumber
       Sample.localUidComparesPhoneNumbers
       [(Sample.cache, AppendEvents [Sample.accountForm])]
     = [("acct1", "acct1-contact")]
  /\ calls (output_of
              (Sample.performAll
                 [(Sample.cache, AppendEvents [Sample.accountForm])]
                 (state_of Sample.finished1)))
     = []
  /\ length (calls (output_of
                      (Sample.performAll
                         [(Sample.cache, AppendEvents [Sample.accountForm])]
                         (state_of Sample.finished1))))
     <> size (list_to_set
                (requestKeys Sample.toCaseFolded Sample.minimizePhoneNumber
                   Sample.localUidComparesPhoneNumbers
                   [(Sample.cache, AppendEvents [Sample.accountForm])])
              : gset UidPair).
Proof.
  split_and!; [vm_compute; reflexivity..|vm_compute; discriminate].
Qed.

(** X5 on the session of the account event: one request, one callback. *)
Lemma counter_and_set_count_witness :
  resolvedAddresses
    (state_of (Sample.performAll
                 [(Sample.cache, AppendEvents [Sample.accountForm]);
                  (Sample.cache, AddressResolved)] initial)) = 1%Z
  /\ size (requestedAddresses
             (state_of (Sample.performAll
                          [(Sample.cache, AppendEvents [Sample.accountForm]);
                           (Sample.cache, AddressResolved)] initial))) = 1.
Proof.
  destruct (counter_and_set_count Sample.toCaseFolded Sample.minimizePhoneNumber
              Sample.localUidComparesPhoneNumbers
              [(Sample.cache, AppendEvents [Sample.accountForm]);
               (Sample.cache, AddressResolved)] initial)
    as (Hcounter & _ & Hsize).
  - vm_compute. discriminate.
  - vm_compute. discriminate.
  - vm_compute. discriminate.
  - split; [exact Hcounter|].
    etrans; [exact Hsize|]. vm_compute. reflexivity.
Defined.
